(** * Collection: a keyed, insertion-ordered container

    A shallow embedding of [src/Collection.ts] (class [Collection<V>], a
    subclass of the host [Map<K, V>]) together with the properties its
    specification states about it.

    Conventions of the embedding.
    - The host [Map] keeps its entries in insertion order and the class
      relies on that order ([values()], [entries()], iteration), so the
      map data is an association list, oldest entry first.
    - Methods that mutate [this] return the new state of the collection
      next to their result.
    - A synchronous call either returns or throws ([Completion]); a call
      of an [async] method always returns a promise ([Promise]).
    - Predicates and transforms are functions of the receiver they are
      bound to, the value, the key and the collection they are handed;
      they may read the collection but do not mutate it. *)

From Stdlib Require Import List String Ascii ZArith QArith Qround Lia Bool PeanoNat.
From Stdlib Require Import Permutation Sorted.
Import ListNotations.

Local Open Scope string_scope.
Local Open Scope list_scope.
Local Open Scope nat_scope.

Set Implicit Arguments.

(* ================================================================== *)
(** ** Keys *)

(** [export type K = string | number] (line 9).  Numbers are the integer
    keys of the specification's data model, so the special cases of the
    host's number comparison (NaN, signed zero) do not arise.
    [KUndefined] is the value a property read [v[key]] yields when the
    field is absent; the host map takes it as a key like any other
    primitive. *)
Inductive K : Type :=
| KUndefined
| KStr (s : string)
| KNum (n : Z).

Definition K_eq_dec (a b : K) : {a = b} + {a <> b}.
Proof. decide equality; [apply string_dec | apply Z.eq_dec]. Defined.

(** Key comparison of the host map. *)
Definition sameValueZero (a b : K) : bool :=
  if K_eq_dec a b then true else false.

(* ================================================================== *)
(** ** The host map: ordered key/value data *)

Module MapData.
Section Ops.
Context {V : Type}.

Definition keys (m : list (K * V)) : list K := map fst m.

Fixpoint get (k : K) (m : list (K * V)) : option V :=
  match m with
  | [] => None
  | (k', v') :: rest => if sameValueZero k' k then Some v' else get k rest
  end.

(** [Map.prototype.set]: an existing key keeps its position and takes
    the new value, a new key is appended. *)
Fixpoint set (k : K) (v : V) (m : list (K * V)) : list (K * V) :=
  match m with
  | [] => [(k, v)]
  | (k', v') :: rest =>
      if sameValueZero k' k then (k', v) :: rest
      else (k', v') :: set k v rest
  end.

(** [Map.prototype.delete]: the entry of the key, if there is one, is
    removed; the others keep their order. *)
Fixpoint delete (k : K) (m : list (K * V)) : list (K * V) :=
  match m with
  | [] => []
  | (k', v') :: rest =>
      if sameValueZero k' k then rest
      else (k', v') :: delete k rest
  end.

(** [new Map(iterable)]: the pairs are [set] one after the other. *)
Definition of_pairs (pairs : list (K * V)) : list (K * V) :=
  fold_left (fun m kv => set (fst kv) (snd kv) m) pairs [].

(** The invariant of the host map: no key occurs twice. *)
Definition wf (m : list (K * V)) : Prop := NoDup (keys m).

End Ops.
End MapData.

(* ================================================================== *)
(** ** The class *)

(** [class Collection<V> extends Map<K, V>] with its field [keyName]
    (lines 18-24). *)
Record Collection (V : Type) : Type := mkCollection {
  keyName : string;
  mapData : list (K * V)
}.

Arguments mkCollection {V} keyName mapData.

(** The property read [v[key]] on a stored value, as far as it is used to
    derive a key. *)
Class PropertyRead (V : Type) : Type := getProp : V -> string -> K.

(** What a caller can hand to the constructor: an array (the declared
    parameter type [V[]]) or another iterable of key/value pairs, which
    [Array.isArray] tells apart. *)
Inductive CtorValues (V : Type) : Type :=
| ArrayOf (items : list V)
| IterableOf (pairs : list (K * V)).

Arguments ArrayOf {V} items.
Arguments IterableOf {V} pairs.

Section Basics.
Context {V : Type} `{PropertyRead V}.

Definition entries (c : Collection V) : list (K * V) := mapData c.
Definition keys (c : Collection V) : list K := map fst (mapData c).
Definition values (c : Collection V) : list V := map snd (mapData c).
Definition size (c : Collection V) : nat := List.length (mapData c).
Definition get (k : K) (c : Collection V) : option V := MapData.get k (mapData c).
Definition has (k : K) (c : Collection V) : bool :=
  match get k c with Some _ => true | None => false end.
Definition set (k : K) (v : V) (c : Collection V) : Collection V :=
  mkCollection (keyName c) (MapData.set k v (mapData c)).
Definition delete (k : K) (c : Collection V) : Collection V :=
  mkCollection (keyName c) (MapData.delete k (mapData c)).
Definition clear (c : Collection V) : Collection V :=
  mkCollection (keyName c) [].

Definition wf (c : Collection V) : Prop := MapData.wf (mapData c).

(** [constructor(values: V[] = [], key: string = "id")], lines 32-37. *)
Definition Collection_new (values : CtorValues V) (key : string) : Collection V :=
  let data :=
    match values with
    | ArrayOf items => map (fun v => (getProp v key, v)) items
    | IterableOf pairs => pairs
    end in
  mkCollection key (MapData.of_pairs data).

(** The constructor with its default arguments. *)
Definition Collection_ctor (values : option (CtorValues V)) (key : option string)
  : Collection V :=
  Collection_new
    (match values with Some vs => vs | None => ArrayOf [] end)
    (match key with Some k => k | None => "id" end).

(** [toJSON], lines 44-46. *)
Definition toJSON (c : Collection V) : list V := values c.

(** [push(...items)], lines 54-57. *)
Definition push (items : list V) (c : Collection V) : Collection V :=
  fold_left (fun this item => set (getProp item (keyName this)) item this) items c.

(** [remove(...items)], lines 65-68. *)
Definition remove (items : list V) (c : Collection V) : Collection V :=
  fold_left (fun this item => delete (getProp item (keyName this)) this) items c.

(** [reverse()], lines 197-202. *)
Definition reverse (c : Collection V) : Collection V :=
  let entries := rev (entries c) in
  let this := clear c in
  fold_left (fun this kv => set (fst kv) (snd kv) this) entries this.

(** [randomItem()], lines 175-177.  [rnd] is the number drawn by
    [Math.random()]; reading an array at an index it does not have
    yields [undefined], here [None]. *)
Definition randomItem (rnd : Q) (c : Collection V) : option V :=
  let i := Qfloor (rnd * inject_Z (Z.of_nat (size c)))%Q in
  if (i <? 0)%Z then None else nth_error (values c) (Z.to_nat i).

End Basics.

(* ================================================================== *)
(** ** Calls, errors and promises *)

Inductive JSError : Type :=
| TypeError (message : string)
| AggregateError
| Thrown (what : string).

(** The outcome of a synchronous call. *)
Inductive Completion (A : Type) : Type :=
| Normal (a : A)
| Throw (e : JSError).

Arguments Normal {A} a.
Arguments Throw {A} e.

Definition bindC {A B : Type} (c : Completion A) (k : A -> Completion B) : Completion B :=
  match c with
  | Normal a => k a
  | Throw e => Throw e
  end.

Notation "'do' x <- c ;; k" := (bindC c (fun x => k))
  (at level 10, x name, c at level 100, k at level 200).

(** A promise, by what becomes of it.  [tick] is the logical time of the
    settlement on the single thread of the event loop: tick 0 is a promise
    that is already settled when it is handed over, and reactions to
    promises settled at the same tick run in the order in which the
    reactions were registered. *)
Inductive Promise (A : Type) : Type :=
| Fulfilled (tick : nat) (a : A)
| Rejected (tick : nat) (e : JSError)
| Pending.

Arguments Fulfilled {A} tick a.
Arguments Rejected {A} tick e.
Arguments Pending {A}.

Section Promises.
Context {A : Type}.

Definition tick_of (p : Promise A) : nat :=
  match p with Fulfilled t _ => t | Rejected t _ => t | Pending => 0 end.

(** [p.then(cb)] *)
Definition then_ {B : Type} (p : Promise A) (cb : A -> Completion B) : Promise B :=
  match p with
  | Fulfilled t a =>
      match cb a with
      | Normal b => Fulfilled t b
      | Throw e => Rejected t e
      end
  | Rejected t e => Rejected t e
  | Pending => Pending
  end.

(** [p.catch(cb)] *)
Definition catch_ (p : Promise A) (cb : JSError -> Completion A) : Promise A :=
  match p with
  | Fulfilled t a => Fulfilled t a
  | Rejected t e =>
      match cb e with
      | Normal a => Fulfilled t a
      | Throw e' => Rejected t e'
      end
  | Pending => Pending
  end.

(** The fulfilment that comes first: the least tick, and among equal
    ticks the promise that stands first in the array. *)
Fixpoint first_fulfilled (ps : list (Promise A)) : option (nat * A) :=
  match ps with
  | [] => None
  | p :: rest =>
      match p, first_fulfilled rest with
      | Fulfilled t a, Some (t', a') => if t <=? t' then Some (t, a) else Some (t', a')
      | Fulfilled t a, None => Some (t, a)
      | _, r => r
      end
  end.

(** The tick at which the last promise of the array settles, when all
    of them do. *)
Fixpoint all_settled_tick (ps : list (Promise A)) : option nat :=
  match ps with
  | [] => Some 0
  | Pending :: _ => None
  | p :: rest =>
      match all_settled_tick rest with
      | Some t => Some (Nat.max (tick_of p) t)
      | None => None
      end
  end.

(** [Promise.any(ps)]: fulfilled by the first fulfilment; rejected with
    an [AggregateError] once every promise is rejected (at once for an
    empty array); pending otherwise. *)
Definition Promise_any (ps : list (Promise A)) : Promise A :=
  match first_fulfilled ps with
  | Some (t, a) => Fulfilled t a
  | None =>
      match all_settled_tick ps with
      | Some t => Rejected t AggregateError
      | None => Pending
      end
  end.

(** [Promise.allSettled(ps)]: fulfilled, with the outcomes, once every
    promise is settled; never rejected. *)
Definition Promise_allSettled (ps : list (Promise A)) : Promise (list (Promise A)) :=
  match all_settled_tick ps with
  | Some t => Fulfilled t ps
  | None => Pending
  end.

End Promises.

(** The body of an [async] method runs synchronously up to its first
    [await]: it either throws there or reaches a promise whose outcome is
    the outcome of the call.  In both cases the call itself returns a
    promise; an exception of the body is the rejection of that promise. *)
Definition async_ {A : Type} (body : Completion (Promise A)) : Completion (Promise A) :=
  Normal (match body with
          | Normal p => p
          | Throw e => Rejected 0 e
          end).

(** Reactions registered on promises run in the order of the
    settlements.  A job is a reaction with the tick at which it runs;
    [settlement_order] sorts the jobs by tick and keeps the order of
    registration among equal ticks. *)
Section Jobs.
Context {X : Type}.

Fixpoint insert_job (x : nat * X) (l : list (nat * X)) : list (nat * X) :=
  match l with
  | [] => [x]
  | y :: rest =>
      if fst x <=? fst y then x :: y :: rest
      else y :: insert_job x rest
  end.

Definition settlement_order (jobs : list (nat * X)) : list (nat * X) :=
  fold_right insert_job [] jobs.

End Jobs.

(** The job of a [then] callback on [p]: it runs when [p] is fulfilled,
    with the value of [p]; a rejected or pending [p] runs nothing. *)
Definition then_job {A X : Type} (p : Promise A) (cb : A -> X) : list (nat * X) :=
  match p with
  | Fulfilled t a => [(t, cb a)]
  | _ => []
  end.

(** An argument in the position of a function: a function, or a value
    that is not one, with its rendering in a template literal. *)
Inductive JSArg (F : Type) : Type :=
| Callable (f : F)
| NotCallable (shown : string).

Arguments Callable {F} f.
Arguments NotCallable {F} shown.

(** [if (typeof fn !== "function") throw new TypeError(`${fn} is not a function`)] *)
Definition assert_function {F : Type} (fn : JSArg F) : Completion F :=
  match fn with
  | Callable f => Normal f
  | NotCallable shown => Throw (TypeError (shown ++ " is not a function")%string)
  end.

(** The effects of a set of jobs on a store, in settlement order. *)
Definition run_jobs {S : Type} (jobs : list (nat * (S -> S))) (s : S) : S :=
  fold_left (fun s job => snd job s) (settlement_order jobs) s.

(* ================================================================== *)
(** ** Finding, filtering, mapping and sweeping *)

Section Combinators.
Context {This V : Type} `{PropertyRead V}.

(** [InputFN<V, OutputType>] (line 6).  The first argument is the
    receiver [this] of the call, [None] for [undefined]. *)
Definition InputFN (Out : Type) : Type :=
  option This -> V -> K -> Collection V -> Out.

(** [if (typeof thisArg !== "undefined") fn = fn.bind(thisArg)] *)
Definition bind_this {Out : Type} (fn : InputFN Out) (thisArg : option This)
  : InputFN Out :=
  match thisArg with
  | Some t => fun _ => fn (Some t)
  | None => fn
  end.

(** [[...this]] *)
Definition spread (this : Collection V) : list (K * V) := entries this.

(** *** find, lines 77-84 *)
Fixpoint find_loop (fn : InputFN bool) (this : Collection V) (iter : list (K * V))
  : option V :=
  match iter with
  | [] => None
  | (key, val) :: rest =>
      if fn None val key this then Some val else find_loop fn this rest
  end.

Definition find (fn : JSArg (InputFN bool)) (thisArg : option This)
    (this : Collection V) : Completion (option V) :=
  do fn <- assert_function fn ;;
  let fn := bind_this fn thisArg in
  Normal (find_loop fn this (entries this)).

(** *** findAsync, lines 92-106 *)

(** The invocations started by [[...this].map(item => fn(...))]: every
    entry with the promise its invocation returned. *)
Definition started {Out : Type} (fn : InputFN (Promise Out)) (this : Collection V)
  : list ((K * V) * Promise Out) :=
  map (fun item => (item, fn None (snd item) (fst item) this)) (spread this).

(** The array handed to [Promise.any]: for every invocation, its
    promise followed by the callback of lines 97-103. *)
Definition findAsync_promises (fn : InputFN (Promise bool)) (this : Collection V)
  : list (Promise (option V)) :=
  map (fun ip =>
         then_ (snd ip)
               (fun r => if r : bool then Normal (Some (snd (fst ip)))
                         else Throw (Thrown "e")))
      (started fn this).

Definition findAsync (fn : JSArg (InputFN (Promise bool))) (thisArg : option This)
    (this : Collection V) : Completion (Promise (option V)) :=
  async_ (
    do fn <- assert_function fn ;;
    let fn := bind_this fn thisArg in
    Normal (catch_ (Promise_any (findAsync_promises fn this))
                   (fun _ => Normal None))).

(** *** filter, lines 115-123 *)
Fixpoint filter_loop (fn : InputFN bool) (this : Collection V) (iter : list (K * V))
    (results : Collection V) : Collection V :=
  match iter with
  | [] => results
  | (key, val) :: rest =>
      filter_loop fn this rest
        (if fn None val key this then set key val results else results)
  end.

Definition filter (fn : JSArg (InputFN bool)) (thisArg : option This)
    (this : Collection V) : Completion (Collection V) :=
  do fn <- assert_function fn ;;
  let fn := bind_this fn thisArg in
  let results := Collection_new (ArrayOf []) (keyName this) in
  Normal (filter_loop fn this (entries this) results).

(** *** filterAsync, lines 131-137 *)

(** The array handed to [Promise.allSettled]: for every invocation, its
    promise followed by a callback that only acts on a store; the value
    of these promises is not used. *)
Definition reactions {Out : Type} (invocations : list ((K * V) * Promise Out))
  : list (Promise unit) :=
  map (fun ip => then_ (snd ip) (fun _ => Normal tt)) invocations.

Definition filterAsync (fn : JSArg (InputFN (Promise bool))) (thisArg : option This)
    (this : Collection V) : Completion (Promise (Collection V)) :=
  async_ (
    do fn <- assert_function fn ;;
    let fn := bind_this fn thisArg in
    let results := Collection_new (ArrayOf []) (keyName this) in
    let invocations := started fn this in
    let jobs :=
      flat_map (fun ip =>
                  then_job (snd ip)
                    (fun (r : bool) results =>
                       if r then set (fst (fst ip)) (snd (fst ip)) results
                       else results))
               invocations in
    let results := run_jobs jobs results in
    Normal (then_ (Promise_allSettled (reactions invocations))
                  (fun _ => Normal results))).

(** *** sweep, lines 211-219.  The loop walks the entries the map had
    when it started; deleting the entry under the cursor does not
    disturb the walk, and the predicate is handed the live collection. *)
Fixpoint sweep_loop (fn : InputFN bool) (iter : list (K * V)) (this : Collection V)
  : Collection V :=
  match iter with
  | [] => this
  | (key, val) :: rest =>
      sweep_loop fn rest (if fn None val key this then delete key this else this)
  end.

(** What the predicate answers, call by call, in the loop of [sweep]. *)
Fixpoint sweep_verdicts (fn : InputFN bool) (iter : list (K * V)) (this : Collection V)
  : list bool :=
  match iter with
  | [] => []
  | (key, val) :: rest =>
      let passed := fn None val key this in
      passed :: sweep_verdicts fn rest (if passed then delete key this else this)
  end.

Definition sweep (fn : JSArg (InputFN bool)) (thisArg : option This)
    (this : Collection V) : Completion nat * Collection V :=
  match assert_function fn with
  | Throw e => (Throw e, this)
  | Normal fn =>
      let fn := bind_this fn thisArg in
      let previousSize := size this in
      let this := sweep_loop fn (entries this) this in
      (Normal (previousSize - size this), this)
  end.

(** *** sweepAsync, lines 227-233 *)
Definition sweepAsync (fn : JSArg (InputFN (Promise bool))) (thisArg : option This)
    (this : Collection V) : Completion (Promise nat) * Collection V :=
  match assert_function fn with
  | Throw e => (async_ (Throw e), this)
  | Normal fn =>
      let fn := bind_this fn thisArg in
      let previousSize := size this in
      let invocations := started fn this in
      let jobs :=
        flat_map (fun ip =>
                    then_job (snd ip)
                      (fun (passed : bool) this =>
                         if passed then delete (fst (fst ip)) this else this))
                 invocations in
      let this := run_jobs jobs this in
      (async_ (Normal (then_ (Promise_allSettled (reactions invocations))
                             (fun _ => Normal (previousSize - size this)))),
       this)
  end.

End Combinators.

Section Mapping.
Context {This V T : Type} `{PropertyRead V} `{PropertyRead T}.

(** *** map, lines 147-153 *)
Fixpoint map_loop (fn : InputFN (This := This) T) (this : Collection V)
    (iter : list (K * V)) (coll : Collection T) : Collection T :=
  match iter with
  | [] => coll
  | (key, val) :: rest =>
      map_loop fn this rest (set key (fn None val key this) coll)
  end.

Definition map_ (fn : JSArg (InputFN (This := This) T)) (thisArg : option This)
    (this : Collection V) : Completion (Collection T) :=
  do fn <- assert_function fn ;;
  let fn := bind_this fn thisArg in
  let coll := Collection_new (ArrayOf []) (keyName this) in
  Normal (map_loop fn this (entries this) coll).

(** *** mapAsync, lines 162-168 *)
Definition mapAsync (fn : JSArg (InputFN (This := This) (Promise T)))
    (thisArg : option This) (this : Collection V)
  : Completion (Promise (Collection T)) :=
  async_ (
    do fn <- assert_function fn ;;
    let fn := bind_this fn thisArg in
    let coll := Collection_new (ArrayOf []) (keyName this) in
    let invocations := started fn this in
    let jobs :=
      flat_map (fun ip =>
                  then_job (snd ip)
                    (fun (v : T) coll => set (fst (fst ip)) v coll))
               invocations in
    let coll := run_jobs jobs coll in
    Normal (then_ (Promise_allSettled (reactions invocations))
                  (fun _ => Normal coll))).

End Mapping.

(* ================================================================== *)
(** ** Sampling *)

Section Sampling.
Context {V : Type}.

(** [arr.splice(start, 1)] with an integer [start]: a negative start
    counts from the end, a start past the end is the end; the element
    found there, if any, is taken out.  The result is [removed[0]]
    ([None] for [undefined]) with the array as [splice] leaves it. *)
Definition splice_one (start : Z) (arr : list V) : option V * list V :=
  let len := Z.of_nat (List.length arr) in
  let actualStart :=
    if (start <? 0)%Z then Z.max (len + start) 0 else Z.min start len in
  let i := Z.to_nat actualStart in
  (nth_error arr i, firstn i arr ++ skipn (S i) arr).

(** The callback of [Array.from] at line 187, called [n] times on the
    scratch array [arr]; [draws k] is the number the [k]-th call of
    [Math.random()] returns. *)
Fixpoint random_picks (n k : nat) (draws : nat -> Q) (arr : list V) : list (option V) :=
  match n with
  | 0 => []
  | S n' =>
      let i := Qfloor (draws k * inject_Z (Z.of_nat (List.length arr)))%Q in
      let (picked, arr') := splice_one i arr in
      picked :: random_picks n' (S k) draws arr'
  end.

(** [random(amount = 1)], lines 184-188, for an integer [amount].  The
    length handed to [Array.from] is [Math.min(amount, arr.length)], taken
    as 0 when it is negative. *)
Definition random (draws : nat -> Q) (amount : option Z) (c : Collection V)
  : list (option V) :=
  let amount := match amount with Some a => a | None => 1%Z end in
  let arr := values c in
  match arr with
  | [] => []
  | _ :: _ =>
      random_picks (Z.to_nat (Z.min amount (Z.of_nat (List.length arr)))) 0 draws arr
  end.

End Sampling.

(* ================================================================== *)
(** ** A concrete universe of stored values *)

(** Flat objects and flat arrays over the primitives of [K], with the
    property read of the host language: an object yields the value of the
    field or [undefined]; an array yields its length under ["length"],
    its element under a canonical index and [undefined] otherwise. *)
Module JS.

Inductive Item : Type :=
| Obj (props : list (string * K))
| Arr (elems : list K).

Fixpoint field (name : string) (props : list (string * K)) : K :=
  match props with
  | [] => KUndefined
  | (n, x) :: rest => if String.eqb n name then x else field name rest
  end.

Definition digit (c : ascii) : option nat :=
  let n := nat_of_ascii c in
  if (48 <=? n) && (n <=? 57) then Some (n - 48) else None.

Fixpoint digits (s : string) (acc : nat) : option nat :=
  match s with
  | EmptyString => Some acc
  | String c rest =>
      match digit c with
      | Some d => digits rest (10 * acc + d)
      | None => None
      end
  end.

(** A canonical array index: decimal digits with no leading zero. *)
Definition array_index (s : string) : option nat :=
  match s with
  | EmptyString => None
  | String c rest =>
      if Ascii.eqb c "0"%char
      then (match rest with EmptyString => Some 0 | _ => None end)
      else digits s 0
  end.

Definition read (v : Item) (key : string) : K :=
  match v with
  | Obj props => field key props
  | Arr elems =>
      if String.eqb key "length" then KNum (Z.of_nat (List.length elems))
      else match array_index key with
           | Some i => nth i elems KUndefined
           | None => KUndefined
           end
  end.

#[global] Instance Item_read : PropertyRead Item := read.

End JS.

(** Sample values and collections over that universe. *)
Module Samples.
Import JS.

Definition alice : Item := Obj [("id", KNum 1); ("name", KStr "alice")].
Definition bob : Item := Obj [("id", KNum 2); ("name", KStr "bob")].
Definition carol : Item := Obj [("id", KNum 3); ("name", KStr "carol")].
(** Another object under alice's key. *)
Definition alias : Item := Obj [("id", KNum 1); ("name", KStr "alias")].

(** Two key/value pairs, as two-element arrays. *)
Definition pair_a : Item := Arr [KStr "a"; KNum 1].
Definition pair_b : Item := Arr [KStr "b"; KNum 2].

Definition team : Collection Item := Collection_new (ArrayOf [alice; bob; carol]) "id".
Definition solo : Collection Item := Collection_new (ArrayOf [alice]) "id".
Definition nobody : Collection Item := Collection_ctor None None.

(** A predicate whose promises settle at different ticks: truthy for
    alice at tick 5 and for bob at tick 3, rejected for the others. *)
Definition race : InputFN (This := unit) (V := Item) (Promise bool) :=
  fun _ _ key _ =>
    match key with
    | KNum 1 => Fulfilled 5 true
    | KNum 2 => Fulfilled 3 true
    | _ => Rejected 1 (Thrown "boom")
    end.

(** A predicate that matches nothing: falsy for alice, rejected for the
    others. *)
Definition no_match : InputFN (This := unit) (V := Item) (Promise bool) :=
  fun _ _ key _ =>
    match key with
    | KNum 1 => Fulfilled 2 false
    | _ => Rejected 4 (Thrown "boom")
    end.

(** A predicate and a transform with their promise-returning versions
    that are fulfilled when they return. *)
Definition is_bob : InputFN (This := unit) (V := Item) bool :=
  fun _ _ key _ => sameValueZero key (KNum 2).

Definition is_bob_async : InputFN (This := unit) (V := Item) (Promise bool) :=
  fun _ val key this => Fulfilled 0 (is_bob None val key this).

Definition name_of : InputFN (This := unit) (V := Item) Item :=
  fun _ val key _ => Arr [key; read val "name"].

Definition name_of_async : InputFN (This := unit) (V := Item) (Promise Item) :=
  fun _ val key this => Fulfilled 0 (name_of None val key this).

End Samples.

(** More sample inputs: draws of the random source and predicates and
    transforms whose promises settle after different delays. *)
Module Cases.
Import JS.

(** The numbers [Math.random()] returns, call after call. *)
Definition draws : nat -> Q :=
  fun k => match k with 0 => 3 # 4 | 1 => 0 # 1 | _ => 1 # 2 end.

(** A predicate of the key alone: every key but alice's. *)
Definition not_alice : Item -> K -> bool :=
  fun _ key => negb (sameValueZero key (KNum 1)).

(** Its asynchronous version, answering late for bob and early for
    carol. *)
Definition not_alice_late : InputFN (This := unit) (V := Item) (Promise bool) :=
  fun _ val key _ =>
    match key with
    | KNum 2 => Fulfilled 9 (not_alice val key)
    | KNum 3 => Fulfilled 1 (not_alice val key)
    | _ => Fulfilled 4 (not_alice val key)
    end.


End Cases.

(* ================================================================== *)
(** ** Vocabulary of the statements *)

(** How many answers of a predicate are truthy. *)
Definition truthy_count (verdicts : list bool) : nat :=
  List.length (List.filter (fun b : bool => b) verdicts).

(** The entries a sweep leaves: those whose call of the predicate
    answered falsy. *)
Definition survivors {V : Type} (iter : list (K * V)) (verdicts : list bool)
  : list (K * V) :=
  map fst (List.filter (fun ev => negb (snd ev)) (combine iter verdicts)).

(** A predicate's promise that never yields a match: it is fulfilled with
    a falsy value or it is rejected. *)
Definition settles_without_match (p : Promise bool) : Prop :=
  match p with
  | Fulfilled _ r => r = false
  | Rejected _ _ => True
  | Pending => False
  end.

(** The keys of a sequence, each once, in the order of first occurrence. *)
Fixpoint distinct_from (seen ks : list K) : list K :=
  match ks with
  | [] => []
  | k :: rest =>
      if in_dec K_eq_dec k seen then distinct_from seen rest
      else k :: distinct_from (seen ++ [k]) rest
  end.

Definition distinct (ks : list K) : list K := distinct_from [] ks.

(** The value written last under a key in a sequence of pairs. *)
Fixpoint last_write {V : Type} (k : K) (pairs : list (K * V)) : option V :=
  match pairs with
  | [] => None
  | (k', v) :: rest =>
      match last_write k rest with
      | Some w => Some w
      | None => if sameValueZero k' k then Some v else None
      end
  end.

(** A predicate's promise that yields a match. *)
Definition truthy_fulfilled (p : Promise bool) : bool :=
  match p with
  | Fulfilled _ r => r
  | _ => false
  end.

(** The fulfilments among a list of invocations, each with its tick, its
    entry and its value, in the order of the invocations. *)
Definition fulfilments {V Out : Type} (invocations : list ((K * V) * Promise Out))
  : list (nat * ((K * V) * Out)) :=
  flat_map (fun ip => then_job (snd ip) (fun a => (fst ip, a))) invocations.


(** Every entry sits under the key its value carries in the key field. *)
Definition keyed {V : Type} `{PropertyRead V} (c : Collection V) : Prop :=
  forall k v, In (k, v) (entries c) -> getProp v (keyName c) = k.

(** Whether a key is among the keys of some items. *)
Definition key_among (ks : list K) (k : K) : bool :=
  existsb (fun k' => sameValueZero k' k) ks.

(* ================================================================== *)
(** ** Facts about the host map *)

Lemma sameValueZero_true (a b : K) : sameValueZero a b = true <-> a = b.
Proof. unfold sameValueZero; destruct (K_eq_dec a b); split; congruence. Qed.

Lemma sameValueZero_false (a b : K) : sameValueZero a b = false <-> a <> b.
Proof. unfold sameValueZero; destruct (K_eq_dec a b); split; congruence. Qed.

Lemma sameValueZero_refl (a : K) : sameValueZero a a = true.
Proof. now apply sameValueZero_true. Qed.

Section MapDataFacts.
Context {V : Type}.
Implicit Types (m pairs : list (K * V)) (k : K) (v : V).

Lemma keys_set k v m :
  MapData.keys (MapData.set k v m) =
  if in_dec K_eq_dec k (MapData.keys m) then MapData.keys m
  else MapData.keys m ++ [k].
Proof.
  induction m as [|[k' v'] rest IH]; simpl.
  - reflexivity.
  - destruct (sameValueZero k' k) eqn:E.
    + apply sameValueZero_true in E; subst k'. simpl.
      destruct (K_eq_dec k k); [|congruence].
      destruct (in_dec K_eq_dec k (MapData.keys rest)); reflexivity.
    + apply sameValueZero_false in E. simpl. rewrite IH.
      destruct (K_eq_dec k' k); [congruence|].
      destruct (in_dec K_eq_dec k (MapData.keys rest)); reflexivity.
Qed.

Lemma set_absent k v m :
  ~ In k (MapData.keys m) -> MapData.set k v m = m ++ [(k, v)].
Proof.
  induction m as [|[k' v'] rest IH]; simpl; intros Hn.
  - reflexivity.
  - destruct (sameValueZero k' k) eqn:E.
    + apply sameValueZero_true in E. tauto.
    + f_equal. apply IH. tauto.
Qed.

Lemma get_None k m : MapData.get k m = None <-> ~ In k (MapData.keys m).
Proof.
  induction m as [|[k' v'] rest IH]; simpl.
  - tauto.
  - destruct (sameValueZero k' k) eqn:E.
    + apply sameValueZero_true in E. split; [discriminate | tauto].
    + apply sameValueZero_false in E. rewrite IH. tauto.
Qed.

Lemma get_set_eq k v m : MapData.get k (MapData.set k v m) = Some v.
Proof.
  induction m as [|[k' v'] rest IH]; simpl.
  - now rewrite sameValueZero_refl.
  - destruct (sameValueZero k' k) eqn:E; simpl; rewrite E; auto.
Qed.

Lemma get_set_ne k k' v m :
  k' <> k -> MapData.get k' (MapData.set k v m) = MapData.get k' m.
Proof.
  intros Hne. induction m as [|[k0 v0] rest IH]; simpl.
  - destruct (sameValueZero k k') eqn:E; [|reflexivity].
    apply sameValueZero_true in E; congruence.
  - destruct (sameValueZero k0 k) eqn:E; simpl.
    + apply sameValueZero_true in E; subst k0.
      destruct (sameValueZero k k') eqn:E'; [|reflexivity].
      apply sameValueZero_true in E'; congruence.
    + now rewrite IH.
Qed.

Lemma delete_absent k m : ~ In k (MapData.keys m) -> MapData.delete k m = m.
Proof.
  induction m as [|[k' v'] rest IH]; simpl; intros Hn; [reflexivity|].
  destruct (sameValueZero k' k) eqn:E.
  - apply sameValueZero_true in E. tauto.
  - f_equal. apply IH. tauto.
Qed.

Lemma delete_set k v m : MapData.delete k (MapData.set k v m) = MapData.delete k m.
Proof.
  induction m as [|[k' v'] rest IH]; simpl.
  - now rewrite sameValueZero_refl.
  - destruct (sameValueZero k' k) eqn:E; simpl; rewrite E; congruence.
Qed.

Lemma keys_delete_incl k m x :
  In x (MapData.keys (MapData.delete k m)) -> In x (MapData.keys m).
Proof.
  induction m as [|[k' v'] rest IH]; simpl; [tauto|].
  destruct (sameValueZero k' k); simpl; tauto.
Qed.

Lemma wf_delete k m : MapData.wf m -> MapData.wf (MapData.delete k m).
Proof.
  unfold MapData.wf.
  induction m as [|[k' v'] rest IH]; simpl; intros Hnd; [constructor|].
  inversion Hnd as [|? ? Hni Hnd']; subst.
  destruct (sameValueZero k' k); simpl; [assumption|].
  constructor; [|auto].
  intros Hin. apply Hni. eapply keys_delete_incl; eassumption.
Qed.

Lemma wf_set k v m : MapData.wf m -> MapData.wf (MapData.set k v m).
Proof.
  unfold MapData.wf. intros Hnd. rewrite keys_set.
  destruct (in_dec K_eq_dec k (MapData.keys m)) as [Hin|Hni]; [assumption|].
  apply NoDup_rev in Hnd. rewrite <- (rev_involutive (MapData.keys m ++ [k])).
  apply NoDup_rev. rewrite rev_app_distr. simpl. constructor; [|assumption].
  now rewrite <- in_rev.
Qed.

Lemma get_delete_eq k m : MapData.wf m -> MapData.get k (MapData.delete k m) = None.
Proof.
  unfold MapData.wf.
  induction m as [|[k' v'] rest IH]; simpl; intros Hnd; [reflexivity|].
  inversion Hnd as [|? ? Hni Hnd']; subst.
  destruct (sameValueZero k' k) eqn:E; simpl.
  - apply sameValueZero_true in E; subst k'. now apply get_None.
  - rewrite E. auto.
Qed.

Lemma get_delete_ne k k' m :
  k' <> k -> MapData.get k' (MapData.delete k m) = MapData.get k' m.
Proof.
  intros Hne. induction m as [|[k0 v0] rest IH]; simpl; [reflexivity|].
  destruct (sameValueZero k0 k) eqn:E; simpl.
  - apply sameValueZero_true in E; subst k0.
    destruct (sameValueZero k k') eqn:E'; [|reflexivity].
    apply sameValueZero_true in E'; congruence.
  - now rewrite IH.
Qed.

Lemma length_delete_present k m :
  In k (MapData.keys m) -> S (List.length (MapData.delete k m)) = List.length m.
Proof.
  induction m as [|[k' v'] rest IH]; simpl; [tauto|].
  destruct (sameValueZero k' k) eqn:E; simpl; [reflexivity|].
  apply sameValueZero_false in E. intros [Heq|Hin]; [congruence|].
  f_equal. auto.
Qed.

(** Setting pairs with fresh, pairwise different keys appends them. *)
Lemma fold_set_fresh pairs m :
  NoDup (MapData.keys (m ++ pairs)) ->
  fold_left (fun m kv => MapData.set (fst kv) (snd kv) m) pairs m = m ++ pairs.
Proof.
  revert m. induction pairs as [|[k v] rest IH]; intros m Hnd; simpl.
  - now rewrite app_nil_r.
  - rewrite set_absent.
    + rewrite IH; rewrite <- app_assoc; [reflexivity | exact Hnd].
    + unfold MapData.keys in Hnd. rewrite map_app in Hnd. simpl in Hnd.
      apply NoDup_remove_2 in Hnd. intros Hin. apply Hnd.
      apply in_or_app. now left.
Qed.

Lemma of_pairs_nodup pairs :
  NoDup (MapData.keys pairs) -> MapData.of_pairs pairs = pairs.
Proof. intros Hnd. unfold MapData.of_pairs. now rewrite fold_set_fresh. Qed.

Lemma keys_fold_set pairs m :
  MapData.keys (fold_left (fun m kv => MapData.set (fst kv) (snd kv) m) pairs m) =
  MapData.keys m ++ distinct_from (MapData.keys m) (map fst pairs).
Proof.
  revert m. induction pairs as [|[k v] rest IH]; intros m; simpl.
  - now rewrite app_nil_r.
  - rewrite IH, keys_set.
    destruct (in_dec K_eq_dec k (MapData.keys m)); [reflexivity|].
    now rewrite <- app_assoc.
Qed.

Lemma get_fold_set k pairs m :
  MapData.get k (fold_left (fun m kv => MapData.set (fst kv) (snd kv) m) pairs m) =
  match last_write k pairs with
  | Some w => Some w
  | None => MapData.get k m
  end.
Proof.
  revert m. induction pairs as [|[k' v] rest IH]; intros m; simpl.
  - reflexivity.
  - rewrite IH. destruct (last_write k rest); [reflexivity|].
    destruct (sameValueZero k' k) eqn:E.
    + apply sameValueZero_true in E; subst k'. apply get_set_eq.
    + apply sameValueZero_false in E. apply get_set_ne. congruence.
Qed.

Lemma wf_fold_set pairs m :
  MapData.wf m ->
  MapData.wf (fold_left (fun m kv => MapData.set (fst kv) (snd kv) m) pairs m).
Proof.
  revert m. induction pairs as [|[k v] rest IH]; intros m Hwf; simpl; [assumption|].
  apply IH. now apply wf_set.
Qed.

End MapDataFacts.

Create HintDb collection discriminated.
#[global] Hint Resolve wf_set wf_delete wf_fold_set : collection.
#[global] Hint Constructors NoDup : collection.

Lemma distinct_from_spec (seen ks : list K) :
  NoDup (distinct_from seen ks) /\
  forall x, In x (distinct_from seen ks) <-> In x ks /\ ~ In x seen.
Proof.
  revert seen. induction ks as [|k rest IH]; intros seen; simpl.
  - split; [constructor | tauto].
  - destruct (in_dec K_eq_dec k seen) as [Hin|Hni].
    + destruct (IH seen) as [Hnd Hiff]. split; [assumption|].
      intros x. rewrite Hiff. split; [tauto|].
      intros [[->|Hx] Hn]; tauto.
    + destruct (IH (seen ++ [k])) as [Hnd Hiff]. split.
      * constructor; [|assumption]. rewrite Hiff. rewrite in_app_iff. simpl. tauto.
      * intros x. simpl. rewrite Hiff, in_app_iff. simpl.
        destruct (K_eq_dec k x) as [->|Hne]; [tauto|]. tauto.
Qed.

Lemma distinct_NoDup (ks : list K) : NoDup (distinct ks).
Proof. apply distinct_from_spec. Qed.

Lemma distinct_In (ks : list K) (x : K) : In x (distinct ks) <-> In x ks.
Proof. unfold distinct. rewrite (proj2 (distinct_from_spec [] ks)). simpl. tauto. Qed.

(* ================================================================== *)
(** ** Construction, push, remove, reverse, toJSON, randomItem *)

Section BasicFacts.
Context {V : Type} `{PropertyRead V}.
Implicit Types (c : Collection V) (k : K) (v item : V).

Lemma delete_as_filter (m : list (K * V)) k :
  MapData.wf m ->
  MapData.delete k m = List.filter (fun kv => negb (sameValueZero (fst kv) k)) m.
Proof.
  unfold MapData.wf.
  induction m as [|[k' v'] rest IH]; simpl; intros Hnd; [reflexivity|].
  inversion Hnd as [|? ? Hni Hnd']; subst.
  destruct (sameValueZero k' k) eqn:E; simpl.
  - apply sameValueZero_true in E; subst k'.
    rewrite <- IH by assumption. symmetry. now apply delete_absent.
  - f_equal. auto.
Qed.

(** The constructor establishes the invariant of the host map, and the
    mutating methods keep it. *)
Lemma wf_Collection_new (values : CtorValues V) (key : string) :
  wf (Collection_new values key).
Proof.
  unfold wf, Collection_new, MapData.of_pairs, MapData.wf. simpl.
  apply wf_fold_set. unfold MapData.wf. simpl. auto with collection.
Qed.

Lemma wf_push items c : wf c -> wf (push items c).
Proof.
  unfold push. revert c. induction items as [|item rest IH]; intros c Hwf; simpl.
  - assumption.
  - apply IH. unfold wf, set. simpl. auto with collection.
Qed.

Lemma wf_remove items c : wf c -> wf (remove items c).
Proof.
  unfold remove. revert c. induction items as [|item rest IH]; intros c Hwf; simpl.
  - assumption.
  - apply IH. unfold wf, delete. simpl. auto with collection.
Qed.

Lemma fold_set_collection (pairs : list (K * V)) c :
  fold_left (fun this kv => set (fst kv) (snd kv) this) pairs c =
  mkCollection (keyName c)
    (fold_left (fun m kv => MapData.set (fst kv) (snd kv) m) pairs (mapData c)).
Proof.
  revert c. induction pairs as [|kv rest IH]; intros c; simpl.
  - now destruct c.
  - now rewrite IH.
Qed.

Lemma reverse_entries c : wf c -> entries (reverse c) = rev (entries c).
Proof.
  intros Hwf. unfold reverse. rewrite fold_set_collection. unfold entries. simpl.
  apply (fold_set_fresh (rev (mapData c)) []). simpl.
  unfold MapData.keys. rewrite map_rev. now apply NoDup_rev.
Qed.

Lemma wf_reverse c : wf c -> wf (reverse c).
Proof.
  intros Hwf. unfold wf. change (mapData (reverse c)) with (entries (reverse c)).
  rewrite reverse_entries by assumption. unfold MapData.wf, MapData.keys, entries.
  rewrite map_rev. now apply NoDup_rev.
Qed.

Lemma reverse_keyName c : keyName (reverse c) = keyName c.
Proof. unfold reverse. now rewrite fold_set_collection. Qed.

End BasicFacts.

Section BasicClaims.
Context {V : Type} `{PropertyRead V}.
Implicit Types (c : Collection V) (k : K) (v item : V).

(** C5 (amended).  The constructor tells its two modes apart by
    [Array.isArray]: every array is a sequence of raw items, whatever
    the shape of the items, and each item is stored under the key read
    off its key field; an iterable that is not an array is a sequence
    of key/value pairs, stored as they are.  In both modes the keys of
    the collection are the distinct keys supplied, in the order of their
    first occurrence, its size is their number, and each key holds the
    value written last under it. *)
Theorem constructor_populates_entries :
  forall key : string,
    (forall items : list V,
        let c := Collection_new (ArrayOf items) key in
        let derived := map (fun v => (getProp v key, v)) items in
        keys c = distinct (map fst derived) /\
        size c = List.length (distinct (map fst derived)) /\
        (forall k, get k c = last_write k derived) /\
        keyName c = key /\ wf c)
    /\
    (forall pairs : list (K * V),
        let c := Collection_new (IterableOf pairs) key in
        keys c = distinct (map fst pairs) /\
        size c = List.length (distinct (map fst pairs)) /\
        (forall k, get k c = last_write k pairs) /\
        keyName c = key /\ wf c).
Proof.
  intros key.
  assert (Hgen : forall values (pairs : list (K * V)),
             mapData (Collection_new values key) = MapData.of_pairs pairs ->
             let c := Collection_new values key in
             keys c = distinct (map fst pairs) /\
             size c = List.length (distinct (map fst pairs)) /\
             (forall k, get k c = last_write k pairs) /\
             keyName c = key /\ wf c).
  { intros values pairs Hdata c.
    assert (Hkeys : keys c = distinct (map fst pairs)).
    { unfold keys, c. rewrite Hdata. unfold MapData.of_pairs.
      exact (keys_fold_set pairs []). }
    repeat split.
    - exact Hkeys.
    - unfold size. rewrite <- Hkeys. unfold keys. now rewrite length_map.
    - intros k. unfold get, c. rewrite Hdata. unfold MapData.of_pairs.
      rewrite get_fold_set. now destruct (last_write k pairs).
    - apply wf_Collection_new. }
  split.
  - intros items. apply Hgen. reflexivity.
  - intros pairs. apply Hgen. reflexivity.
Qed.

(** C9 (amended).  When the keys read off the raw values are pairwise
    different, [toJSON] of the collection built from them is the
    sequence of those values, in insertion order. *)
Theorem toJSON_of_distinct_items :
  forall (items : list V) (key : string),
    NoDup (map (fun v => getProp v key) items) ->
    toJSON (Collection_new (ArrayOf items) key) = items.
Proof.
  intros items key Hnd. unfold toJSON, values, Collection_new. simpl.
  rewrite of_pairs_nodup.
  - rewrite map_map. simpl. apply map_id.
  - unfold MapData.keys. rewrite map_map. exact Hnd.
Qed.

(** C7 (amended).  After [push(item)] followed by [remove(item)] the
    item's key is absent and every other entry is as it was before the
    push, in the same order.  When the key was absent before the push
    the collection, and with it its size, is restored; when the key was
    present its entry is gone and the size is one less than before. *)
Theorem push_then_remove :
  forall c item,
    wf c ->
    let k := getProp item (keyName c) in
    let c' := remove [item] (push [item] c) in
    get k c' = None /\
    (forall k', k' <> k -> get k' c' = get k' c) /\
    entries c' = List.filter (fun kv => negb (sameValueZero (fst kv) k)) (entries c) /\
    (get k c = None -> c' = c /\ size c' = size c) /\
    (get k c <> None -> S (size c') = size c).
Proof.
  intros c item Hwf k c'.
  assert (Hdata : mapData c' = MapData.delete k (mapData c)).
  { unfold c', remove, push. simpl. apply delete_set. }
  assert (Hname : keyName c' = keyName c) by reflexivity.
  repeat split.
  - unfold get. rewrite Hdata. now apply get_delete_eq.
  - intros k' Hne. unfold get. rewrite Hdata. now apply get_delete_ne.
  - unfold entries. rewrite Hdata. now apply delete_as_filter.
  - destruct c as [name data]. destruct c' as [name' data'].
    simpl in *. subst. f_equal. apply delete_absent. now apply get_None.
  - unfold size. rewrite Hdata. f_equal. apply delete_absent.
    apply get_None. assumption.
  - intros Hsome. unfold size. rewrite Hdata. apply length_delete_present.
    destruct (in_dec K_eq_dec k (MapData.keys (mapData c))) as [Hin|Hni]; [assumption|].
    exfalso. apply Hsome. now apply get_None.
Qed.

(** C8.  [reverse] leaves the collection with its entries in the
    reverse of their previous order (the key field is untouched: it is
    the same collection), and reversing twice restores the collection. *)
Theorem reverse_involution :
  forall c,
    wf c ->
    entries (reverse c) = rev (entries c) /\
    keyName (reverse c) = keyName c /\
    reverse (reverse c) = c.
Proof.
  intros c Hwf. split; [now apply reverse_entries|].
  split; [apply reverse_keyName|].
  assert (He : entries (reverse (reverse c)) = entries c).
  { rewrite reverse_entries by now apply wf_reverse.
    rewrite reverse_entries by assumption. apply rev_involutive. }
  assert (Hn : keyName (reverse (reverse c)) = keyName c).
  { now rewrite !reverse_keyName. }
  destruct (reverse (reverse c)) as [n d]. destruct c as [n' d'].
  unfold entries in He. simpl in *. congruence.
Qed.



(** C10.  On an empty collection [randomItem] returns [undefined],
    whatever number is drawn: the index computed is 0 and the array of
    values has no element there. *)
Theorem randomItem_empty :
  forall (rnd : Q) c, size c = 0 -> randomItem rnd c = None.
Proof.
  intros rnd c Hsize. unfold randomItem. rewrite Hsize.
  unfold values. unfold size in Hsize.
  destruct (mapData c); [|discriminate]. simpl.
  destruct (_ <? _)%Z; [reflexivity|].
  now destruct (Z.to_nat _).
Qed.

End BasicClaims.

(** *** The basic claims at concrete inputs *)

(** An array of key/value pairs handed to the constructor is read as an
    array of raw items: with the default key field every pair gets the
    key [undefined], so one entry is left, and neither the keys nor the
    size are those of the pairs supplied. *)
Lemma constructor_array_of_pairs :
  let c := Collection_new (ArrayOf [Samples.pair_a; Samples.pair_b]) "id" in
  let supplied := [(KStr "a", KNum 1); (KStr "b", KNum 2)] in
  entries c = [(KUndefined, Samples.pair_b)] /\
  keys c <> map fst supplied /\
  size c <> List.length (distinct (map fst supplied)).
Proof.
  cbv zeta. split; [reflexivity|]. split; vm_compute; discriminate.
Defined.

Lemma toJSON_of_distinct_items_witness :
  NoDup (map (fun v => getProp v "id") [Samples.alice; Samples.bob; Samples.carol]) /\
  toJSON (Collection_new (ArrayOf [Samples.alice; Samples.bob; Samples.carol]) "id")
  = [Samples.alice; Samples.bob; Samples.carol].
Proof.
  assert (Hnd : NoDup (map (fun v => getProp v "id")
                         [Samples.alice; Samples.bob; Samples.carol])).
  { simpl. repeat constructor; simpl; intuition discriminate. }
  split; [exact Hnd | exact (toJSON_of_distinct_items _ _ Hnd)].
Defined.

(** Two raw values under one key: the second overwrites the first, and
    [toJSON] returns one value where two were supplied. *)
Lemma toJSON_of_items_sharing_a_key :
  toJSON (Collection_new (ArrayOf [Samples.alice; Samples.alias]) "id") = [Samples.alias] /\
  toJSON (Collection_new (ArrayOf [Samples.alice; Samples.alias]) "id")
  <> [Samples.alice; Samples.alias].
Proof. split; [reflexivity | vm_compute; discriminate]. Defined.

Lemma wf_team : wf Samples.team.
Proof. apply wf_Collection_new. Defined.

Lemma push_then_remove_witness :
  wf Samples.team /\
  let k := getProp Samples.bob (keyName Samples.team) in
  let c' := remove [Samples.bob] (push [Samples.bob] Samples.team) in
  get k c' = None /\
  (forall k', k' <> k -> get k' c' = get k' Samples.team) /\
  entries c' =
    List.filter (fun kv => negb (sameValueZero (fst kv) k)) (entries Samples.team) /\
  (get k Samples.team = None -> c' = Samples.team /\ size c' = size Samples.team) /\
  (get k Samples.team <> None -> S (size c') = size Samples.team).
Proof.
  split; [exact wf_team | exact (push_then_remove Samples.bob wf_team)].
Defined.

(** Pushing an item whose key is already there and removing it again
    leaves the collection one entry smaller than before the push. *)
Lemma push_then_remove_of_present_key :
  size Samples.solo = 1 /\
  size (remove [Samples.alice] (push [Samples.alice] Samples.solo)) = 0 /\
  size (remove [Samples.alice] (push [Samples.alice] Samples.solo)) <> size Samples.solo.
Proof. repeat split; vm_compute; discriminate. Defined.

Lemma reverse_involution_witness :
  wf Samples.team /\
  entries (reverse Samples.team) = rev (entries Samples.team) /\
  keyName (reverse Samples.team) = keyName Samples.team /\
  reverse (reverse Samples.team) = Samples.team.
Proof. split; [exact wf_team | exact (reverse_involution wf_team)]. Defined.

Lemma randomItem_empty_witness :
  size Samples.nobody = 0 /\ randomItem (1 # 2) Samples.nobody = None.
Proof. split; [reflexivity | apply randomItem_empty; reflexivity]. Defined.

(** [reverse()] on [a, b, c] yields [c, b, a]. *)
Example reverse_team :
  toJSON (reverse Samples.team) = [Samples.carol; Samples.bob; Samples.alice].
Proof. reflexivity. Qed.

(* ================================================================== *)
(** ** sweep *)

Section SweepFacts.
Context {This V : Type} `{PropertyRead V}.
Implicit Types (c this : Collection V) (k key : K) (v val : V).

Lemma bind_this_apply {Out : Type} (fn : InputFN (This := This) Out)
    (thisArg r : option This) val key this :
  bind_this fn thisArg r val key this =
  fn (match thisArg with Some t => Some t | None => r end) val key this.
Proof. now destruct thisArg. Qed.

Lemma delete_middle (kept rest : list (K * V)) key val :
  ~ In key (MapData.keys kept) ->
  MapData.delete key (kept ++ (key, val) :: rest) = kept ++ rest.
Proof.
  induction kept as [|[k' v'] kept IH]; simpl; intros Hni.
  - now rewrite sameValueZero_refl.
  - destruct (sameValueZero k' key) eqn:E.
    + apply sameValueZero_true in E. tauto.
    + f_equal. apply IH. tauto.
Qed.

Lemma sweep_loop_data (fn : InputFN (This := This) bool) iter :
  forall kept this,
    mapData this = kept ++ iter ->
    MapData.wf (kept ++ iter) ->
    mapData (sweep_loop fn iter this) =
      kept ++ survivors iter (sweep_verdicts fn iter this) /\
    keyName (sweep_loop fn iter this) = keyName this.
Proof.
  induction iter as [|[key val] rest IH]; intros kept this Hdata Hwf; simpl.
  - split; [|reflexivity]. rewrite Hdata. reflexivity.
  - assert (Hni : ~ In key (MapData.keys kept)).
    { unfold MapData.wf, MapData.keys in Hwf. rewrite map_app in Hwf. simpl in Hwf.
      apply NoDup_remove_2 in Hwf. intros Hin. apply Hwf. apply in_or_app. now left. }
    destruct (fn None val key this) eqn:Hpassed.
    + destruct (IH kept (delete key this)) as [Hd Hn].
      * unfold delete. simpl. rewrite Hdata. now apply delete_middle.
      * unfold MapData.wf, MapData.keys in *. rewrite map_app in *. simpl in Hwf.
        now apply NoDup_remove_1 in Hwf.
      * split; [|exact Hn]. rewrite Hd. reflexivity.
    + destruct (IH (kept ++ [(key, val)]) this) as [Hd Hn].
      * rewrite Hdata, <- app_assoc. reflexivity.
      * now rewrite <- app_assoc.
      * split; [|exact Hn]. rewrite Hd. unfold survivors. simpl.
        now rewrite <- app_assoc.
Qed.

Lemma length_sweep_verdicts (fn : InputFN (This := This) bool) iter this :
  List.length (sweep_verdicts fn iter this) = List.length iter.
Proof.
  revert this. induction iter as [|[key val] rest IH]; intros this; simpl; auto.
Qed.

Lemma length_survivors (iter : list (K * V)) (verdicts : list bool) :
  List.length verdicts = List.length iter ->
  List.length (survivors iter verdicts) + truthy_count verdicts = List.length iter.
Proof.
  unfold survivors, truthy_count. rewrite length_map.
  revert verdicts. induction iter as [|e rest IH]; intros [|b bs]; simpl;
    try discriminate; auto.
  intros [= Hlen]. specialize (IH bs Hlen). destruct b; simpl; lia.
Qed.

Lemma sweep_verdicts_stateless (fn : InputFN (This := This) bool) (p : V -> K -> bool) iter :
  (forall val key this, fn None val key this = p val key) ->
  forall this,
    sweep_verdicts fn iter this = map (fun kv => p (snd kv) (fst kv)) iter.
Proof.
  intros Hp. induction iter as [|[key val] rest IH]; intros this; simpl.
  - reflexivity.
  - rewrite Hp. f_equal. apply IH.
Qed.

Lemma survivors_map (iter : list (K * V)) (g : K * V -> bool) :
  survivors iter (map g iter) = List.filter (fun kv => negb (g kv)) iter.
Proof.
  unfold survivors. induction iter as [|e rest IH]; simpl; [reflexivity|].
  destruct (g e); simpl; [assumption | now f_equal].
Qed.

Lemma truthy_count_map (iter : list (K * V)) (g : K * V -> bool) :
  truthy_count (map g iter) = List.length (List.filter g iter).
Proof.
  unfold truthy_count. induction iter as [|e rest IH]; simpl; [reflexivity|].
  destruct (g e); simpl; now rewrite IH.
Qed.

Lemma wf_sweep_loop (fn : InputFN (This := This) bool) c :
  wf c -> wf (sweep_loop fn (entries c) c).
Proof.
  intros Hwf. destruct (sweep_loop_data fn (entries c) [] c eq_refl Hwf) as [Hd _].
  unfold wf. rewrite Hd. simpl. unfold survivors.
  generalize (sweep_verdicts fn (entries c) c). unfold entries.
  unfold wf, MapData.wf, MapData.keys in Hwf. revert Hwf.
  induction (mapData c) as [|[k v] rest IH]; intros Hnd verdicts.
  - constructor.
  - destruct verdicts as [|b bs]; simpl; [constructor|].
    inversion Hnd as [|? ? Hni Hnd']; subst.
    destruct b; simpl; [now apply IH|].
    constructor; [|now apply IH].
    intros Hin. apply Hni. clear - Hin.
    revert bs Hin. induction rest as [|[k' v'] rest IH']; intros [|b bs]; simpl;
      try tauto.
    destruct b; simpl; intros Hin; [right; eauto|].
    destruct Hin as [->|Hin]; [now left | right; eauto].
Qed.

End SweepFacts.

Section SweepClaim.
Context {This V : Type} `{PropertyRead V}.

(** C6.  [sweep] deletes, in place, exactly the entries for which the
    call of the predicate is truthy: the entries left are those whose
    call answered falsy, in their order, and the number returned, the
    size before minus the size after, is the number of truthy answers.
    For a predicate of the value and the key alone the entries left are
    those that fail it and the number is that of the entries that meet
    it; the constantly true predicate empties the collection and returns
    its original size; the constantly false one returns 0 and leaves the
    collection as it was. *)
Theorem sweep_deletes_truthy_entries :
  forall (fn : InputFN (This := This) bool) (thisArg : option This) (c : Collection V),
    wf c ->
    let verdicts := sweep_verdicts (bind_this fn thisArg) (entries c) c in
    let result := fst (sweep (Callable fn) thisArg c) in
    let c' := snd (sweep (Callable fn) thisArg c) in
    entries c' =
      map fst (List.filter (fun ev => negb (snd ev)) (combine (entries c) verdicts)) /\
    keyName c' = keyName c /\
    result = Normal (size c - size c') /\
    size c - size c' = truthy_count verdicts /\
    size c' + truthy_count verdicts = size c /\
    (forall p : V -> K -> bool,
        (forall r v k t, fn r v k t = p v k) ->
        entries c' = List.filter (fun kv => negb (p (snd kv) (fst kv))) (entries c) /\
        result = Normal (List.length
                           (List.filter (fun kv => p (snd kv) (fst kv)) (entries c)))) /\
    ((forall r v k t, fn r v k t = true) ->
        entries c' = [] /\ result = Normal (size c)) /\
    ((forall r v k t, fn r v k t = false) ->
        c' = c /\ result = Normal 0).
Proof.
  intros fn thisArg c Hwf verdicts result c'.
  set (f := bind_this fn thisArg) in *.
  assert (Hc' : c' = sweep_loop f (entries c) c) by reflexivity.
  assert (Hres : result = Normal (size c - size c')) by reflexivity.
  destruct (sweep_loop_data f (entries c) [] c eq_refl Hwf) as [Hd Hn].
  simpl in Hd. fold verdicts in Hd. rewrite <- Hc' in Hd, Hn.
  assert (Hlen : size c' + truthy_count verdicts = size c).
  { unfold size. rewrite Hd. apply length_survivors.
    unfold verdicts. apply length_sweep_verdicts. }
  assert (Hstateless : forall p : V -> K -> bool,
             (forall r v k t, fn r v k t = p v k) ->
             entries c' = List.filter (fun kv => negb (p (snd kv) (fst kv))) (entries c) /\
             result = Normal (List.length
                                (List.filter (fun kv => p (snd kv) (fst kv)) (entries c)))).
  { intros p Hp.
    assert (Hv : verdicts = map (fun kv => p (snd kv) (fst kv)) (entries c)).
    { unfold verdicts. apply sweep_verdicts_stateless.
      intros val key this. unfold f. rewrite bind_this_apply. apply Hp. }
    split.
    - unfold entries at 1. rewrite Hd, Hv. apply survivors_map.
    - rewrite Hres. f_equal. rewrite Hv, truthy_count_map in Hlen. lia. }
  split; [exact Hd|]. split; [exact Hn|]. split; [exact Hres|].
  split; [lia|]. split; [exact Hlen|]. split; [exact Hstateless|]. split.
  - intros Htrue.
    destruct (Hstateless (fun _ _ => true)) as [He Hr]; [intros; apply Htrue|].
    split.
    + rewrite He. simpl. clear. induction (entries c); simpl; auto.
    + rewrite Hr. f_equal. unfold size, entries. clear.
      induction (mapData c); simpl; auto.
  - intros Hfalse.
    destruct (Hstateless (fun _ _ => false)) as [He Hr]; [intros; apply Hfalse|].
    assert (He' : mapData c' = mapData c).
    { unfold entries in He. rewrite He. clear.
      induction (mapData c); simpl; [reflexivity | now f_equal]. }
    split.
    + destruct c' as [n d]. destruct c as [n0 d0]. simpl in *. congruence.
    + rewrite Hr. f_equal. clear. induction (entries c); simpl; auto.
Qed.

End SweepClaim.

Lemma sweep_deletes_truthy_entries_witness :
  wf Samples.team /\
  snd (sweep (This := unit)
         (Callable (fun _ _ k _ => sameValueZero k (KNum 2))) None Samples.team)
  = Collection_new (ArrayOf [Samples.alice; Samples.carol]) "id" /\
  fst (sweep (This := unit)
         (Callable (fun _ _ k _ => sameValueZero k (KNum 2))) None Samples.team)
  = Normal 1.
Proof.
  split; [exact wf_team|].
  pose proof (sweep_deletes_truthy_entries (This := unit)
                (fun _ _ k _ => sameValueZero k (KNum 2)) None wf_team) as Hs.
  cbv zeta in Hs. destruct Hs as (_ & _ & Hres & _).
  split; [reflexivity | exact Hres].
Defined.

(* ================================================================== *)
(** ** The check of the function argument *)

Section CallableCheck.
Context {This V T : Type} `{PropertyRead V} `{PropertyRead T}.

(** C3 (amended).  Every operation that takes a predicate or transform
    answers a non-callable argument with a [TypeError], before any entry
    is visited and before any invocation is started: the outcome is the
    same for every collection, and the collection is left as it was.  The
    synchronous operations ([find], [filter], [map], [sweep]) throw it;
    the [async] ones ([findAsync], [filterAsync], [mapAsync],
    [sweepAsync]) return normally, with a promise that is already rejected
    with it. *)
Theorem non_callable_argument_is_a_TypeError :
  forall (shown : string) (thisArg : option This) (c : Collection V),
    let e := TypeError (shown ++ " is not a function")%string in
    find (NotCallable shown) thisArg c = Throw e /\
    filter (NotCallable shown) thisArg c = Throw e /\
    map_ (T := T) (NotCallable shown) thisArg c = Throw e /\
    sweep (NotCallable shown) thisArg c = (Throw e, c) /\
    findAsync (NotCallable shown) thisArg c = Normal (Rejected 0 e) /\
    filterAsync (NotCallable shown) thisArg c = Normal (Rejected 0 e) /\
    mapAsync (T := T) (NotCallable shown) thisArg c = Normal (Rejected 0 e) /\
    sweepAsync (NotCallable shown) thisArg c = (Normal (Rejected 0 e), c).
Proof.
  intros shown thisArg c e. unfold find, filter, map_, sweep, findAsync,
    filterAsync, mapAsync, sweepAsync, async_. simpl.
  repeat split.
Qed.

End CallableCheck.

(** A call of [findAsync] with a number in the place of the predicate does
    not throw: it returns a rejected promise. *)
Lemma findAsync_of_non_callable_returns :
  findAsync (This := unit) (NotCallable "42") None Samples.team
  = Normal (Rejected 0 (TypeError "42 is not a function")) /\
  findAsync (This := unit) (NotCallable "42") None Samples.team
  <> Throw (TypeError "42 is not a function").
Proof. split; [reflexivity | discriminate]. Defined.

(* ================================================================== *)
(** ** Facts about promises *)

Section PromiseFacts.
Context {A : Type}.
Implicit Types (p : Promise A) (ps : list (Promise A)).

Lemma first_fulfilled_sound ps t a :
  first_fulfilled ps = Some (t, a) ->
  exists i, nth_error ps i = Some (Fulfilled t a).
Proof.
  revert t a. induction ps as [|p rest IH]; intros t a; simpl; [discriminate|].
  destruct p as [t0 a0| |]; try (intros Hr; destruct (IH _ _ Hr) as [i Hi]; now exists (S i)).
  destruct (first_fulfilled rest) as [[t' a']|].
  - destruct (t0 <=? t').
    + intros [= <- <-]. now exists 0.
    + intros [= <- <-]. destruct (IH _ _ eq_refl) as [i Hi]. now exists (S i).
  - intros [= <- <-]. now exists 0.
Qed.

(** The fulfilment with the least tick wins, and among fulfilments of
    the same tick the one that stands first. *)
Lemma first_fulfilled_winner ps :
  forall i t a,
    nth_error ps i = Some (Fulfilled t a) ->
    (forall j t' a', nth_error ps j = Some (Fulfilled t' a') ->
                     t < t' \/ (t = t' /\ i <= j)) ->
    first_fulfilled ps = Some (t, a).
Proof.
  induction ps as [|p rest IH]; intros i t a Hi Hmin.
  - now destruct i.
  - destruct i as [|i]; simpl in Hi.
    + injection Hi as ->. simpl.
      destruct (first_fulfilled rest) as [[t' a']|] eqn:Hr; [|reflexivity].
      destruct (first_fulfilled_sound _ Hr) as [j Hj].
      destruct (Hmin (S j) t' a' Hj) as [Hlt|[Heq _]].
      * apply Nat.lt_le_incl, Nat.leb_le in Hlt. now rewrite Hlt.
      * subst. now rewrite Nat.leb_refl.
    + assert (Hrest : first_fulfilled rest = Some (t, a)).
      { apply (IH i); [assumption|]. intros j t' a' Hj.
        destruct (Hmin (S j) t' a' Hj) as [Hlt|[Heq Hle]]; [now left|].
        right. split; [assumption | lia]. }
      simpl. rewrite Hrest. destruct p as [t0 a0| |]; try reflexivity.
      destruct (Hmin 0 t0 a0 eq_refl) as [Hlt|[_ Hle]]; [|lia].
      apply Nat.leb_gt in Hlt. now rewrite Hlt.
Qed.

Lemma no_fulfilment ps :
  (forall p, In p ps -> exists t e, p = Rejected t e) ->
  first_fulfilled ps = None /\ exists t, all_settled_tick ps = Some t.
Proof.
  induction ps as [|p rest IH]; intros Hrej; simpl.
  - split; [reflexivity | now exists 0].
  - destruct (Hrej p (or_introl eq_refl)) as (t & e & ->).
    destruct IH as [Hnone [t' Ht']]; [intros q Hq; apply Hrej; now right|].
    rewrite Hnone, Ht'. split; [reflexivity | eauto].
Qed.

Lemma catch_all_never_rejects p (a : A) t e :
  catch_ p (fun _ => Normal a) <> Rejected t e.
Proof. destruct p; discriminate. Qed.

End PromiseFacts.

(* ================================================================== *)
(** ** findAsync *)

Section FindAsync.
Context {This V : Type} `{PropertyRead V}.
Implicit Types (c this : Collection V) (fn f : InputFN (This := This) (V := V) (Promise bool)).

Lemma started_entries {Out : Type} (f : InputFN (This := This) (V := V) (Promise Out)) c :
  map fst (started f c) = entries c.
Proof. unfold started, spread. rewrite map_map. simpl. apply map_id. Qed.

Lemma started_promises {Out : Type} (f : InputFN (This := This) (V := V) (Promise Out)) c :
  map snd (started f c) = map (fun kv => f None (snd kv) (fst kv) c) (entries c).
Proof. unfold started, spread. now rewrite map_map. Qed.

Lemma findAsync_promises_nth f c i :
  nth_error (findAsync_promises f c) i =
  match nth_error (entries c) i with
  | Some (key, val) =>
      Some (then_ (f None val key c)
                  (fun r => if r : bool then Normal (Some val) else Throw (Thrown "e")))
  | None => None
  end.
Proof.
  unfold findAsync_promises, started, spread. rewrite map_map, nth_error_map.
  destruct (nth_error (entries c) i) as [[key val]|]; reflexivity.
Qed.

Lemma findAsync_callable fn thisArg c :
  findAsync (Callable fn) thisArg c =
  Normal (catch_ (Promise_any (findAsync_promises (bind_this fn thisArg) c))
                 (fun _ => Normal None)).
Proof. reflexivity. Qed.

(** C1.  [findAsync] starts the invocation of the predicate for every
    entry, in order, each with the value, the key and the collection,
    whatever the promises of the earlier invocations are; and when the
    invocation for an entry is fulfilled with a truthy result at a tick
    that no other truthy fulfilment precedes (an equal tick counts for the
    entry that stands first), the call resolves, at that tick, with the
    value of that entry, whatever becomes of the other invocations. *)
Theorem findAsync_first_truthy_settlement :
  forall fn (thisArg : option This) c,
    let f := bind_this fn thisArg in
    map fst (started f c) = entries c /\
    map snd (started f c) = map (fun kv => f None (snd kv) (fst kv) c) (entries c) /\
    List.length (findAsync_promises f c) = size c /\
    (forall i key val t,
        nth_error (entries c) i = Some (key, val) ->
        f None val key c = Fulfilled t true ->
        (forall j key' val' t',
            nth_error (entries c) j = Some (key', val') ->
            f None val' key' c = Fulfilled t' true ->
            t < t' \/ (t = t' /\ i <= j)) ->
        findAsync (Callable fn) thisArg c = Normal (Fulfilled t (Some val))).
Proof.
  intros fn thisArg c f.
  split; [apply started_entries|]. split; [apply started_promises|].
  split.
  { unfold findAsync_promises, started, spread, size, entries. now rewrite !length_map. }
  intros i key val t Hi Htruthy Hfirst.
  rewrite findAsync_callable. fold f.
  assert (Hwin : first_fulfilled (findAsync_promises f c) = Some (t, Some val)).
  { apply first_fulfilled_winner with (i := i).
    - rewrite findAsync_promises_nth, Hi, Htruthy. reflexivity.
    - intros j t' a' Hj. rewrite findAsync_promises_nth in Hj.
      destruct (nth_error (entries c) j) as [[key' val']|] eqn:Ej; [|discriminate].
      injection Hj as Hj.
      destruct (f None val' key' c) as [t0 r| |] eqn:Ef; simpl in Hj; try discriminate.
      destruct r; [|discriminate]. injection Hj as -> _.
      exact (Hfirst j key' val' t' Ej Ef). }
  unfold Promise_any. rewrite Hwin. reflexivity.
Qed.

(** C2.  Once the argument has passed the callable check, [findAsync]
    returns a promise that is never rejected; and when every invocation
    is fulfilled with a falsy result or rejected (so also on the empty
    collection), that promise is fulfilled with [undefined]. *)
Theorem findAsync_without_match_is_undefined :
  forall fn (thisArg : option This) c,
    (forall e, findAsync (Callable fn) thisArg c <> Throw e) /\
    (forall t e, findAsync (Callable fn) thisArg c <> Normal (Rejected t e)) /\
    ((forall key val,
         In (key, val) (entries c) ->
         settles_without_match (bind_this fn thisArg None val key c)) ->
     exists t, findAsync (Callable fn) thisArg c = Normal (Fulfilled t None)).
Proof.
  intros fn thisArg c. rewrite findAsync_callable.
  set (f := bind_this fn thisArg).
  split; [discriminate|]. split.
  - intros t e [= Hrej]. revert Hrej. apply catch_all_never_rejects.
  - intros Hnone.
    destruct (no_fulfilment (findAsync_promises f c)) as [Hff [t Ht]].
    { intros p Hp. unfold findAsync_promises, started, spread in Hp.
      rewrite map_map in Hp. apply in_map_iff in Hp.
      destruct Hp as ([key val] & <- & Hin). simpl.
      specialize (Hnone key val Hin). fold f in Hnone.
      destruct (f None val key c) as [t r|t e|]; simpl in *.
      + subst r. eauto.
      + eauto.
      + contradiction. }
    exists t. unfold Promise_any. rewrite Hff, Ht. reflexivity.
Qed.

End FindAsync.

Lemma findAsync_first_truthy_settlement_witness :
  findAsync (Callable Samples.race) None Samples.team
  = Normal (Fulfilled 3 (Some Samples.bob)).
Proof.
  destruct (findAsync_first_truthy_settlement Samples.race None Samples.team)
    as (_ & _ & _ & Hwin).
  apply (Hwin 1 (KNum 2) Samples.bob 3); [reflexivity | reflexivity |].
  intros j key' val' t' Hj Ht'.
  destruct j as [|[|[|j]]]; simpl in Hj.
  - injection Hj as <- <-. injection Ht' as <-. left. lia.
  - injection Hj as <- <-. injection Ht' as <-. right. lia.
  - injection Hj as <- <-. discriminate Ht'.
  - destruct j; discriminate Hj.
Defined.

Lemma findAsync_without_match_is_undefined_witness :
  exists t, findAsync (Callable Samples.no_match) None Samples.team
            = Normal (Fulfilled t None).
Proof.
  apply (findAsync_without_match_is_undefined Samples.no_match None Samples.team).
  intros key val Hin. simpl in Hin.
  destruct Hin as [Hin|[Hin|[Hin|[]]]]; injection Hin as <- <-; exact I || reflexivity.
Defined.

(** On the empty collection [findAsync] resolves with [undefined] at
    once, and a rejection of every invocation is not a rejection of the
    call. *)
Example findAsync_on_empty_collection :
  findAsync (Callable Samples.race) None Samples.nobody = Normal (Fulfilled 0 None).
Proof. reflexivity. Qed.

Example findAsync_all_rejected :
  findAsync (This := unit) (Callable (fun _ _ _ _ => Rejected 7 (Thrown "boom")))
            None Samples.team
  = Normal (Fulfilled 7 None).
Proof. reflexivity. Qed.

(** An invocation that never settles keeps the call pending when no other
    one matches. *)
Example findAsync_pending :
  findAsync (This := unit) (Callable (fun _ _ _ _ => Pending)) None Samples.team
  = Normal Pending.
Proof. reflexivity. Qed.

(* ================================================================== *)
(** ** filterAsync and mapAsync against filter and map *)

Section SettlementFacts.
Context {X : Type}.

Lemma settlement_order_at_once (jobs : list (nat * X)) :
  (forall job, In job jobs -> fst job = 0) -> settlement_order jobs = jobs.
Proof.
  induction jobs as [|job rest IH]; intros Hzero; simpl; [reflexivity|].
  rewrite IH by (intros j Hj; apply Hzero; now right).
  destruct rest as [|next rest']; simpl; [reflexivity|].
  now rewrite (Hzero job (or_introl eq_refl)).
Qed.

End SettlementFacts.

Section ResolvedAtOnce.
Context {This V : Type} `{PropertyRead V}.

(** Invocations that are all fulfilled when they return: their callbacks
    run in the order of the entries. *)
Lemma run_jobs_at_once {Out S : Type} (l : list (K * V)) (g : K * V -> Out)
    (cb : (K * V) * Promise Out -> Out -> S -> S) (s : S) :
  run_jobs (flat_map (fun ip => then_job (snd ip) (cb ip))
              (map (fun kv => (kv, Fulfilled 0 (g kv))) l)) s
  = fold_left (fun s kv => cb (kv, Fulfilled 0 (g kv)) (g kv) s) l s.
Proof.
  unfold run_jobs. rewrite settlement_order_at_once.
  - revert s. induction l as [|kv rest IH]; intros s; simpl; [reflexivity|]. apply IH.
  - intros job Hin. apply in_flat_map in Hin. destruct Hin as (ip & Hip & Hjob).
    apply in_map_iff in Hip. destruct Hip as (kv & <- & _). simpl in Hjob.
    destruct Hjob as [<-|[]]. reflexivity.
Qed.

Lemma reactions_at_once {Out : Type} (l : list (K * V)) (g : K * V -> Out) :
  Promise_allSettled (reactions (map (fun kv => (kv, Fulfilled 0 (g kv))) l))
  = Fulfilled 0 (reactions (map (fun kv => (kv, Fulfilled 0 (g kv))) l)).
Proof.
  unfold Promise_allSettled.
  assert (Ht : all_settled_tick
                 (reactions (map (fun kv => (kv, Fulfilled 0 (g kv))) l)) = Some 0).
  { unfold reactions. induction l as [|kv rest IH]; simpl; [reflexivity|].
    now rewrite IH. }
  now rewrite Ht.
Qed.

Lemma started_at_once {Out : Type} (f : InputFN (This := This) (V := V) (Promise Out))
    (g : InputFN (This := This) (V := V) Out) (c : Collection V) :
  (forall key val, In (key, val) (entries c) ->
                   f None val key c = Fulfilled 0 (g None val key c)) ->
  started f c = map (fun kv => (kv, Fulfilled 0 (g None (snd kv) (fst kv) c))) (entries c).
Proof.
  intros Hnow. unfold started, spread. apply map_ext_in.
  intros [key val] Hin. simpl. now rewrite Hnow.
Qed.

Lemma filter_loop_fold (f : InputFN (This := This) (V := V) bool) this iter results :
  filter_loop f this iter results =
  fold_left (fun res kv => if f None (snd kv) (fst kv) this
                           then set (fst kv) (snd kv) res else res) iter results.
Proof.
  revert results. induction iter as [|[key val] rest IH]; intros results; simpl; auto.
Qed.

Lemma filterAsync_at_once (p : InputFN (This := This) (V := V) bool)
    (fn : InputFN (This := This) (V := V) (Promise bool)) thisArg c :
  (forall key val, In (key, val) (entries c) ->
       bind_this fn thisArg None val key c
       = Fulfilled 0 (bind_this p thisArg None val key c)) ->
  exists r, filter (Callable p) thisArg c = Normal r /\
            filterAsync (Callable fn) thisArg c = Normal (Fulfilled 0 r).
Proof.
  intros Hnow. eexists. split; [reflexivity|].
  unfold filterAsync, filter, async_. simpl.
  rewrite (started_at_once _ _ _ Hnow), reactions_at_once, run_jobs_at_once.
  simpl. rewrite filter_loop_fold. reflexivity.
Qed.

End ResolvedAtOnce.

Section MapAtOnce.
Context {This V T : Type} `{PropertyRead V} `{PropertyRead T}.

Lemma map_loop_fold (f : InputFN (This := This) (V := V) T) this iter (coll : Collection T) :
  map_loop f this iter coll =
  fold_left (fun coll kv => set (fst kv) (f None (snd kv) (fst kv) this) coll) iter coll.
Proof.
  revert coll. induction iter as [|[key val] rest IH]; intros coll; simpl; auto.
Qed.

Lemma mapAsync_at_once (g : InputFN (This := This) (V := V) T)
    (gn : InputFN (This := This) (V := V) (Promise T)) thisArg c :
  (forall key val, In (key, val) (entries c) ->
       bind_this gn thisArg None val key c
       = Fulfilled 0 (bind_this g thisArg None val key c)) ->
  exists m, map_ (Callable g) thisArg c = Normal m /\
            mapAsync (Callable gn) thisArg c = Normal (Fulfilled 0 m).
Proof.
  intros Hnow. eexists. split; [reflexivity|].
  unfold mapAsync, map_, async_. simpl.
  rewrite (started_at_once _ _ _ Hnow), reactions_at_once, run_jobs_at_once.
  simpl. rewrite map_loop_fold. reflexivity.
Qed.

(** C4.  When every invocation of the predicate of [filterAsync], and of
    the transform of [mapAsync], is fulfilled when it returns, the
    collection the call resolves with has the same key field and the same
    set of entries as the collection [filter], respectively [map], returns
    for the predicate or transform that yields the fulfilled values. *)
Theorem async_filter_and_map_agree_with_sync :
  forall (thisArg : option This) (c : Collection V)
         (p : InputFN (This := This) (V := V) bool)
         (fn : InputFN (This := This) (V := V) (Promise bool))
         (g : InputFN (This := This) (V := V) T)
         (gn : InputFN (This := This) (V := V) (Promise T)),
    (forall key val, In (key, val) (entries c) ->
         bind_this fn thisArg None val key c
         = Fulfilled 0 (bind_this p thisArg None val key c)) ->
    (forall key val, In (key, val) (entries c) ->
         bind_this gn thisArg None val key c
         = Fulfilled 0 (bind_this g thisArg None val key c)) ->
    (exists r r',
        filterAsync (Callable fn) thisArg c = Normal (Fulfilled 0 r) /\
        filter (Callable p) thisArg c = Normal r' /\
        keyName r = keyName r' /\
        forall kv, In kv (entries r) <-> In kv (entries r'))
    /\
    (exists m m',
        mapAsync (Callable gn) thisArg c = Normal (Fulfilled 0 m) /\
        map_ (Callable g) thisArg c = Normal m' /\
        keyName m = keyName m' /\
        forall kv, In kv (entries m) <-> In kv (entries m')).
Proof.
  intros thisArg c p fn g gn Hp Hg. split.
  - destruct (filterAsync_at_once p fn thisArg c Hp) as (r & Hsync & Hasync).
    exists r, r. repeat split; auto.
  - destruct (mapAsync_at_once g gn thisArg c Hg) as (m & Hsync & Hasync).
    exists m, m. repeat split; auto.
Qed.

End MapAtOnce.

Lemma async_filter_and_map_agree_with_sync_witness :
  (exists r r',
      filterAsync (Callable Samples.is_bob_async) None Samples.team
      = Normal (Fulfilled 0 r) /\
      filter (Callable Samples.is_bob) None Samples.team = Normal r' /\
      keyName r = keyName r' /\
      forall kv, In kv (entries r) <-> In kv (entries r'))
  /\
  (exists m m',
      mapAsync (Callable Samples.name_of_async) None Samples.team
      = Normal (Fulfilled 0 m) /\
      map_ (Callable Samples.name_of) None Samples.team = Normal m' /\
      keyName m = keyName m' /\
      forall kv, In kv (entries m) <-> In kv (entries m')).
Proof.
  apply (async_filter_and_map_agree_with_sync (T := JS.Item) None Samples.team
           Samples.is_bob Samples.is_bob_async Samples.name_of Samples.name_of_async).
  - intros key val _. reflexivity.
  - intros key val _. reflexivity.
Defined.

(* ================================================================== *)
(** ** More about the synchronous operations *)

Section ListFacts.
Context {A B : Type}.

Lemma NoDup_map_filter (g : A -> B) (q : A -> bool) (l : list A) :
  NoDup (map g l) -> NoDup (map g (List.filter q l)).
Proof.
  induction l as [|x rest IH]; simpl; intros Hnd; [constructor|].
  inversion Hnd as [|? ? Hni Hnd']; subst.
  destruct (q x); simpl; [|auto].
  constructor; [|auto]. intros Hin. apply Hni.
  apply in_map_iff in Hin. destruct Hin as (y & Hy & Hin).
  apply filter_In in Hin. apply in_map_iff. exists y. tauto.
Qed.

Lemma Permutation_filter (q : A -> bool) (l l' : list A) :
  Permutation l l' -> Permutation (List.filter q l) (List.filter q l').
Proof.
  induction 1 as [|x l l' _ IH|x y l|l l' l'' _ IH1 _ IH2]; simpl.
  - constructor.
  - destruct (q x); [now constructor | assumption].
  - destruct (q x), (q y); try apply Permutation_refl. apply perm_swap.
  - eapply Permutation_trans; eassumption.
Qed.

End ListFacts.

Section FoldSet.
Context {D V : Type}.

(** Setting, for the elements of a list that pass a test, keys that are
    new and pairwise different appends their entries in order. *)
Lemma fold_cond_set (key : D -> K) (val : D -> V) (q : D -> bool) (l : list D) :
  forall res : Collection V,
    NoDup (MapData.keys (mapData res) ++ map key (List.filter q l)) ->
    fold_left (fun res d => if q d then set (key d) (val d) res else res) l res
    = mkCollection (keyName res)
        (mapData res ++ map (fun d => (key d, val d)) (List.filter q l)).
Proof.
  induction l as [|d rest IH]; intros res Hnd; simpl.
  - rewrite app_nil_r. now destruct res.
  - simpl in Hnd. revert Hnd. destruct (q d) eqn:Hq; simpl; intros Hnd.
    + assert (Hfresh : ~ In (key d) (MapData.keys (mapData res))).
      { apply NoDup_remove_2 in Hnd. intros Hin. apply Hnd.
        apply in_or_app. now left. }
      assert (Hset : set (key d) (val d) res
                     = mkCollection (keyName res) (mapData res ++ [(key d, val d)])).
      { unfold set. now rewrite (@set_absent _ (key d) (val d) (mapData res) Hfresh). }
      rewrite Hset, IH; simpl.
      * now rewrite <- app_assoc.
      * unfold MapData.keys. rewrite map_app. simpl. now rewrite <- app_assoc.
    + now apply IH.
Qed.

End FoldSet.

Section SyncQueries.
Context {This V : Type} `{PropertyRead V}.
Implicit Types (c this : Collection V) (f : InputFN (This := This) (V := V) bool).



Lemma find_loop_head_of_filter f this (iter : list (K * V)) :
  find_loop f this iter =
  hd_error (map snd (List.filter (fun kv => f None (snd kv) (fst kv) this) iter)).
Proof.
  induction iter as [|[k v] rest IH]; simpl; [reflexivity|].
  destruct (f None v k this); [reflexivity | assumption].
Qed.


Lemma filter_loop_entries f c :
  wf c ->
  filter_loop f c (entries c) (Collection_new (ArrayOf []) (keyName c))
  = mkCollection (keyName c)
      (List.filter (fun kv => f None (snd kv) (fst kv) c) (entries c)).
Proof.
  intros Hwf. rewrite filter_loop_fold.
  rewrite (fold_cond_set fst snd (fun kv => f None (snd kv) (fst kv) c)).
  - simpl. f_equal. generalize (List.filter (fun kv => f None (snd kv) (fst kv) c) (entries c)).
    intros l. induction l as [|[k v] l IH]; simpl; [reflexivity | now f_equal].
  - simpl. apply NoDup_map_filter. exact Hwf.
Qed.

(** X2.  On a collection with the host map's unique keys, [filter]
    returns a new collection with the same key field whose entries are
    the entries for which the predicate is truthy, in their original
    order, and which has unique keys in turn. *)
Theorem filter_keeps_matches_in_order :
  forall (fn : InputFN (This := This) (V := V) bool) (thisArg : option This) c,
    wf c ->
    let f := bind_this fn thisArg in
    exists r,
      filter (Callable fn) thisArg c = Normal r /\
      entries r = List.filter (fun kv => f None (snd kv) (fst kv) c) (entries c) /\
      keyName r = keyName c /\
      wf r.
Proof.
  intros fn thisArg c Hwf f. eexists. split; [reflexivity|].
  simpl. fold f. rewrite (filter_loop_entries f Hwf). simpl.
  repeat split. unfold wf. simpl. apply NoDup_map_filter. exact Hwf.
Qed.

(** X3.  On a collection with unique keys, [find] returns the first
    value of the collection [filter] returns for the same predicate
    ([undefined] when that collection is empty). *)
Theorem find_is_head_of_filter :
  forall (fn : InputFN (This := This) (V := V) bool) (thisArg : option This) c,
    wf c ->
    exists r,
      filter (Callable fn) thisArg c = Normal r /\
      find (Callable fn) thisArg c = Normal (hd_error (toJSON r)).
Proof.
  intros fn thisArg c Hwf. eexists. split; [reflexivity|].
  simpl. rewrite (filter_loop_entries (bind_this fn thisArg) Hwf).
  unfold find. simpl. f_equal. apply find_loop_head_of_filter.
Qed.

End SyncQueries.

Section SyncMap.
Context {This V T : Type} `{PropertyRead V} `{PropertyRead T}.

(** X4.  On a collection with unique keys, [map] returns a new
    collection with the same key field that has, key by key and in the
    same order, the result of the transform in the place of the value. *)
Theorem map_replaces_values_in_order :
  forall (fn : InputFN (This := This) (V := V) T) (thisArg : option This)
         (c : Collection V),
    wf c ->
    let f := bind_this fn thisArg in
    exists m : Collection T,
      map_ (Callable fn) thisArg c = Normal m /\
      entries m = map (fun kv => (fst kv, f None (snd kv) (fst kv) c)) (entries c) /\
      keys m = keys c /\
      keyName m = keyName c /\
      wf m.
Proof.
  intros fn thisArg c Hwf f. eexists. split; [reflexivity|].
  simpl. fold f. rewrite map_loop_fold.
  assert (Hall : List.filter (fun _ : K * V => true) (entries c) = entries c).
  { induction (entries c); simpl; [reflexivity | now f_equal]. }
  rewrite (fold_cond_set fst (fun kv => f None (snd kv) (fst kv) c) (fun _ => true)).
  - simpl. rewrite Hall. repeat split.
    + unfold keys, entries. simpl. now rewrite map_map.
    + unfold wf, MapData.wf, MapData.keys, entries. simpl. rewrite map_map. exact Hwf.
  - simpl. rewrite Hall. exact Hwf.
Qed.

End SyncMap.

(* ================================================================== *)
(** ** More about push, remove and the key field *)

Lemma sameValueZero_sym (a b : K) : sameValueZero a b = sameValueZero b a.
Proof.
  destruct (sameValueZero b a) eqn:E.
  - apply sameValueZero_true in E. subst. apply sameValueZero_refl.
  - apply sameValueZero_false in E. apply sameValueZero_false. congruence.
Qed.

Section MapDataMore.
Context {V : Type}.
Implicit Types (m pairs : list (K * V)) (k : K) (v : V).

Lemma in_set k v m (x : K * V) :
  In x (MapData.set k v m) -> x = (k, v) \/ In x m.
Proof.
  induction m as [|[k' v'] rest IH]; simpl.
  - intros [<-|[]]. now left.
  - destruct (sameValueZero k' k) eqn:E; simpl.
    + apply sameValueZero_true in E; subst k'. intros [<-|Hin]; auto.
    + intros [<-|Hin]; auto. destruct (IH Hin); auto.
Qed.

Lemma in_delete k m (x : K * V) : In x (MapData.delete k m) -> In x m.
Proof.
  induction m as [|[k' v'] rest IH]; simpl; [tauto|].
  destruct (sameValueZero k' k); simpl; [tauto|]. intros [<-|Hin]; auto.
Qed.

Lemma in_fold_set pairs m (x : K * V) :
  In x (fold_left (fun m kv => MapData.set (fst kv) (snd kv) m) pairs m) ->
  In x m \/ In x pairs.
Proof.
  revert m. induction pairs as [|[k v] rest IH]; intros m; simpl; [tauto|].
  intros Hin. destruct (IH _ Hin) as [Hset|Hrest]; [|tauto].
  destruct (in_set _ _ _ _ Hset) as [->|Hm]; tauto.
Qed.

Lemma filter_filter (p q : K * V -> bool) m :
  List.filter p (List.filter q m) = List.filter (fun x => q x && p x) m.
Proof.
  induction m as [|x rest IH]; simpl; [reflexivity|].
  destruct (q x); simpl; [|assumption]. destruct (p x); now rewrite IH.
Qed.

Lemma wf_filter (q : K * V -> bool) m : MapData.wf m -> MapData.wf (List.filter q m).
Proof. apply NoDup_map_filter. Qed.

(** Deleting a list of keys, in any order, leaves the entries of the
    other keys, in their order. *)
Lemma fold_delete (ks : list K) m :
  MapData.wf m ->
  fold_left (fun m k => MapData.delete k m) ks m
  = List.filter (fun kv => negb (key_among ks (fst kv))) m.
Proof.
  revert m. induction ks as [|k rest IH]; intros m Hwf; simpl.
  - induction m as [|x m IHm]; simpl; [reflexivity|]. f_equal. apply IHm.
    unfold MapData.wf in *. simpl in Hwf. now inversion Hwf.
  - rewrite delete_as_filter by assumption.
    rewrite IH by now apply wf_filter.
    rewrite filter_filter. apply filter_ext. intros [k' v']. simpl.
    rewrite (sameValueZero_sym k' k).
    now destruct (sameValueZero k k'), (key_among rest k').
Qed.

End MapDataMore.

Section KeyField.
Context {V : Type} `{PropertyRead V}.
Implicit Types (c : Collection V) (k : K) (v item : V).

Lemma push_data items c :
  push items c =
  mkCollection (keyName c)
    (fold_left (fun m kv => MapData.set (fst kv) (snd kv) m)
       (map (fun item => (getProp item (keyName c), item)) items) (mapData c)).
Proof.
  unfold push. revert c. induction items as [|item rest IH]; intros c; simpl.
  - now destruct c.
  - rewrite IH. reflexivity.
Qed.

Lemma remove_data items c :
  remove items c =
  mkCollection (keyName c)
    (fold_left (fun m k => MapData.delete k m)
       (map (fun item => getProp item (keyName c)) items) (mapData c)).
Proof.
  unfold remove. revert c. induction items as [|item rest IH]; intros c; simpl.
  - now destruct c.
  - rewrite IH. reflexivity.
Qed.

(** X5.  [push] upserts its items one after the other: a key that is
    already there keeps its position, new keys are appended in the order
    of their first occurrence among the items, every key of an item ends
    up holding the last item pushed under it, and the other keys hold
    what they held.  The key field is unchanged and unique keys stay
    unique. *)
Theorem push_upserts :
  forall items c,
    let pushed := map (fun item => (getProp item (keyName c), item)) items in
    keys (push items c) = keys c ++ distinct_from (keys c) (map fst pushed) /\
    (forall k, get k (push items c) =
               match last_write k pushed with
               | Some item => Some item
               | None => get k c
               end) /\
    keyName (push items c) = keyName c /\
    (wf c -> wf (push items c)).
Proof.
  intros items c pushed. rewrite push_data. fold pushed. repeat split.
  - unfold keys. simpl. apply keys_fold_set.
  - intros k. unfold get. simpl. apply get_fold_set.
  - intros Hwf. unfold wf. simpl. now apply wf_fold_set.
Qed.

(** X6.  On a collection with unique keys, [remove] leaves exactly the
    entries whose key is not the key of one of the items, in their
    order; an item whose key is absent changes nothing.  The key field is
    unchanged and the keys stay unique. *)
Theorem remove_deletes_the_items_keys :
  forall items c,
    wf c ->
    let removed := map (fun item => getProp item (keyName c)) items in
    entries (remove items c)
    = List.filter (fun kv => negb (key_among removed (fst kv))) (entries c) /\
    ((forall k, In k removed -> get k c = None) -> remove items c = c) /\
    keyName (remove items c) = keyName c /\
    wf (remove items c).
Proof.
  intros items c Hwf removed. rewrite remove_data. fold removed.
  unfold entries, wf. simpl. rewrite fold_delete by assumption.
  repeat split.
  - intros Habsent. destruct c as [name data]. simpl in *. f_equal.
    clear Hwf. induction data as [|[k v] rest IH]; simpl; [reflexivity|].
    assert (Hk : key_among removed k = false).
    { destruct (key_among removed k) eqn:E; [|reflexivity].
      unfold key_among in E. apply existsb_exists in E.
      destruct E as (k' & Hin & Hsame). apply sameValueZero_true in Hsame. subst k'.
      specialize (Habsent k Hin). unfold get in Habsent. simpl in Habsent.
      now rewrite sameValueZero_refl in Habsent. }
    rewrite Hk. simpl. f_equal. apply IH. intros k' Hin.
    specialize (Habsent k' Hin). unfold get in *. simpl in *.
    destruct (sameValueZero k k'); [discriminate | assumption].
  - now apply wf_filter.
Qed.

Lemma sweep_loop_incl {This : Type} (f : InputFN (This := This) (V := V) bool)
    (iter : list (K * V)) c (x : K * V) :
  In x (mapData (sweep_loop f iter c)) -> In x (mapData c).
Proof.
  revert c. induction iter as [|[key val] rest IH]; intros c; simpl; [tauto|].
  intros Hin. apply IH in Hin. destruct (f None val key c); [|assumption].
  simpl in Hin. eapply in_delete; eassumption.
Qed.

Lemma sweep_loop_keyName {This : Type} (f : InputFN (This := This) (V := V) bool)
    (iter : list (K * V)) c :
  keyName (sweep_loop f iter c) = keyName c.
Proof.
  revert c. induction iter as [|[key val] rest IH]; intros c; simpl; [reflexivity|].
  rewrite IH. now destruct (f None val key c).
Qed.

Lemma filter_loop_incl {This : Type} (f : InputFN (This := This) (V := V) bool)
    this (iter : list (K * V)) (results : Collection V) (x : K * V) :
  In x (mapData (filter_loop f this iter results)) ->
  In x (mapData results) \/ In x iter.
Proof.
  revert results. induction iter as [|[key val] rest IH]; intros results; simpl; [tauto|].
  intros Hin. destruct (IH _ Hin) as [Hres|Hrest]; [|tauto].
  destruct (f None val key this); [|tauto].
  simpl in Hres. destruct (in_set _ _ _ _ Hres) as [->|Hm]; tauto.
Qed.

Lemma filter_loop_keyName {This : Type} (f : InputFN (This := This) (V := V) bool)
    this (iter : list (K * V)) (results : Collection V) :
  keyName (filter_loop f this iter results) = keyName results.
Proof.
  revert results. induction iter as [|[key val] rest IH]; intros results; simpl;
    [reflexivity|].
  rewrite IH. now destruct (f None val key this).
Qed.

(** X7.  A collection built from an array of items has every entry under
    the key its value carries in the key field, and [push], [remove],
    [reverse], [sweep] and [filter] keep it so. *)
Theorem entries_stay_under_their_key :
  (forall (items : list V) (key : string),
      keyed (Collection_new (ArrayOf items) key)) /\
  (forall items c, keyed c -> keyed (push items c)) /\
  (forall items c, keyed c -> keyed (remove items c)) /\
  (forall c, keyed c -> keyed (reverse c)) /\
  (forall (This : Type) (fn : InputFN (This := This) (V := V) bool) thisArg c,
      keyed c -> keyed (snd (sweep (Callable fn) thisArg c))) /\
  (forall (This : Type) (fn : InputFN (This := This) (V := V) bool) thisArg c r,
      keyed c -> filter (Callable fn) thisArg c = Normal r -> keyed r).
Proof.
  unfold keyed, entries. repeat split.
  - intros items key k v Hin. simpl in *. unfold MapData.of_pairs in Hin.
    apply in_fold_set in Hin. destruct Hin as [[]|Hin].
    apply in_map_iff in Hin. now destruct Hin as (item & [= <- <-] & _).
  - intros items c Hkeyed k v Hin. rewrite push_data in Hin |- *. simpl in *.
    apply in_fold_set in Hin. destruct Hin as [Hin|Hin]; [now apply Hkeyed|].
    apply in_map_iff in Hin. now destruct Hin as (item & [= <- <-] & _).
  - intros items c Hkeyed k v Hin. rewrite remove_data in Hin |- *. simpl in *.
    apply Hkeyed. revert Hin. generalize (mapData c).
    induction (map (fun item => getProp item (keyName c)) items) as [|k0 ks IH];
      intros m; simpl; [tauto|].
    intros Hin. apply IH in Hin. eapply in_delete; eassumption.
  - intros c Hkeyed k v Hin. rewrite reverse_keyName. unfold reverse in Hin.
    rewrite fold_set_collection in Hin. simpl in Hin.
    apply in_fold_set in Hin. destruct Hin as [[]|Hin].
    apply Hkeyed. unfold entries in Hin. now apply in_rev.
  - intros This fn thisArg c Hkeyed k v Hin. simpl in *.
    rewrite sweep_loop_keyName. apply Hkeyed.
    eapply sweep_loop_incl; eassumption.
  - intros This fn thisArg c r Hkeyed [= <-] k v Hin.
    rewrite filter_loop_keyName. simpl.
    apply filter_loop_incl in Hin. destruct Hin as [[]|Hin]. now apply Hkeyed.
Qed.

(** X8.  A collection with unique keys whose entries sit under the key
    of their value is rebuilt by the constructor from its [toJSON] array
    and its key field. *)
Theorem rebuild_from_toJSON :
  forall c,
    wf c -> keyed c ->
    Collection_new (ArrayOf (toJSON c)) (keyName c) = c.
Proof.
  intros c Hwf Hkeyed. unfold Collection_new, toJSON, values.
  assert (Hdata : map (fun v => (getProp v (keyName c), v)) (map snd (mapData c))
                  = mapData c).
  { rewrite map_map. rewrite <- (map_id (mapData c)) at 2.
    apply map_ext_in. intros [k v] Hin. simpl. f_equal. now apply Hkeyed. }
  rewrite Hdata, of_pairs_nodup by exact Hwf. now destruct c.
Qed.

End KeyField.

(* ================================================================== *)
(** ** random *)

Section RandomFacts.
Context {V : Type}.





(** [random] on an empty collection is the empty array, whatever the
    amount and the draws; so is [random] with an amount of 0 or less. *)
Lemma random_nothing (draws : nat -> Q) (amount : option Z) (c : Collection V) :
  size c = 0 \/ (exists a, amount = Some a /\ (a <= 0)%Z) ->
  random draws amount c = [].
Proof.
  unfold random, size, values. intros [Hempty|(a & -> & Ha)].
  - destruct (mapData c); [reflexivity | discriminate].
  - destruct (map snd (mapData c)); [reflexivity|].
    rewrite Z.min_l by lia. now destruct a.
Qed.

End RandomFacts.

(* ================================================================== *)
(** ** The asynchronous operations under arbitrary settlement *)

Section SettlementOrder.
Context {X : Type}.
Implicit Types (x : nat * X) (l jobs : list (nat * X)).

Lemma insert_job_perm x l : Permutation (insert_job x l) (x :: l).
Proof.
  induction l as [|y rest IH]; simpl; [apply Permutation_refl|].
  destruct (fst x <=? fst y); [apply Permutation_refl|].
  eapply Permutation_trans; [apply perm_skip, IH | apply perm_swap].
Qed.

Lemma settlement_order_perm jobs : Permutation (settlement_order jobs) jobs.
Proof.
  induction jobs as [|x rest IH]; simpl; [constructor|].
  eapply Permutation_trans; [apply insert_job_perm | now constructor].
Qed.

Lemma insert_job_sorted x l :
  StronglySorted (fun a b => fst a <= fst b) l ->
  StronglySorted (fun a b => fst a <= fst b) (insert_job x l).
Proof.
  induction 1 as [|y rest Hs IH Hall]; simpl.
  - constructor; constructor.
  - destruct (fst x <=? fst y) eqn:E.
    + apply Nat.leb_le in E. constructor; [now constructor|].
      constructor; [assumption|].
      eapply Forall_impl; [|exact Hall]. intros a Ha. simpl in Ha. lia.
    + apply Nat.leb_gt in E. constructor; [assumption|].
      eapply Permutation_Forall; [apply Permutation_sym, insert_job_perm|].
      constructor; [lia | assumption].
Qed.

Lemma settlement_order_sorted jobs :
  StronglySorted (fun a b => fst a <= fst b) (settlement_order jobs).
Proof.
  induction jobs as [|x rest IH]; simpl; [constructor|]. now apply insert_job_sorted.
Qed.

End SettlementOrder.

Section SettlementMap.
Context {X Y : Type} (g : X -> Y).

Lemma insert_job_map (x : nat * X) (l : list (nat * X)) :
  insert_job (fst x, g (snd x)) (map (fun d => (fst d, g (snd d))) l)
  = map (fun d => (fst d, g (snd d))) (insert_job x l).
Proof.
  induction l as [|y rest IH]; simpl; [reflexivity|].
  destruct (fst x <=? fst y); simpl; [reflexivity | now rewrite IH].
Qed.

Lemma settlement_order_map (l : list (nat * X)) :
  settlement_order (map (fun d => (fst d, g (snd d))) l)
  = map (fun d => (fst d, g (snd d))) (settlement_order l).
Proof.
  induction l as [|x rest IH]; simpl; [reflexivity|].
  now rewrite IH, insert_job_map.
Qed.

End SettlementMap.

Section Reactions.
Context {V Out S : Type}.
Implicit Types (invs : list ((K * V) * Promise Out)).

(** The jobs of callbacks that act on a store, over the fulfilments. *)
Lemma jobs_of_fulfilments (g : K * V -> Out -> S -> S) invs :
  flat_map (fun ip => then_job (snd ip) (fun a => g (fst ip) a)) invs
  = map (fun d => (fst d, g (fst (snd d)) (snd (snd d)))) (fulfilments invs).
Proof.
  unfold fulfilments. induction invs as [|[kv p] rest IH]; simpl; [reflexivity|].
  rewrite map_app, <- IH. now destruct p.
Qed.

Lemma run_jobs_of_fulfilments (g : K * V -> Out -> S -> S) invs (s : S) :
  run_jobs (flat_map (fun ip => then_job (snd ip) (fun a => g (fst ip) a)) invs) s
  = fold_left (fun s d => g (fst (snd d)) (snd (snd d)) s)
      (settlement_order (fulfilments invs)) s.
Proof.
  unfold run_jobs. rewrite jobs_of_fulfilments.
  rewrite (settlement_order_map (fun e => g (fst e) (snd e))).
  generalize (settlement_order (fulfilments invs)). intros l. revert s.
  induction l as [|d l IH]; intros s; simpl; [reflexivity | apply IH].
Qed.

Lemma all_settled_reactions invs :
  (forall ip, In ip invs -> snd ip <> Pending) ->
  exists t, all_settled_tick
              (map (fun ip => then_ (snd ip) (fun _ => Normal tt)) invs) = Some t.
Proof.
  induction invs as [|[kv p] rest IH]; intros Hsettled; simpl.
  - now exists 0.
  - destruct IH as [t Ht]; [intros ip Hin; apply Hsettled; now right|].
    rewrite Ht. destruct p as [t0 a|t0 e|]; simpl; eauto.
    exfalso. now apply (Hsettled (kv, Pending)); [left|].
Qed.

Lemma pending_reactions invs :
  (exists ip, In ip invs /\ snd ip = Pending) ->
  all_settled_tick (map (fun ip => then_ (snd ip) (fun _ => Normal tt)) invs) = None.
Proof.
  induction invs as [|[kv p] rest IH]; intros (ip & Hin & Hp); simpl.
  - destruct Hin.
  - destruct Hin as [<-|Hin].
    + simpl in Hp. now subst p.
    + rewrite IH by eauto. now destruct p.
Qed.

End Reactions.

Section FulfilmentsOfEntries.
Context {V Out : Type}.
Implicit Types (l : list (K * V)) (h : K * V -> Promise Out).

Lemma fulfilments_cons l h kv :
  fulfilments (map (fun kv => (kv, h kv)) (kv :: l))
  = then_job (h kv) (fun a => (kv, a)) ++ fulfilments (map (fun kv => (kv, h kv)) l).
Proof. reflexivity. Qed.

Lemma fulfilments_keys_incl l h (k : K) :
  In k (map (fun d => fst (fst (snd d))) (fulfilments (map (fun kv => (kv, h kv)) l))) ->
  In k (map fst l).
Proof.
  induction l as [|kv rest IH]; [intros []|].
  rewrite fulfilments_cons, map_app, in_app_iff. simpl.
  intros [Hin|Hin]; [|right; now apply IH].
  destruct (h kv); simpl in Hin; tauto.
Qed.

Lemma fulfilments_keys_NoDup l h :
  NoDup (map fst l) ->
  NoDup (map (fun d => fst (fst (snd d))) (fulfilments (map (fun kv => (kv, h kv)) l))).
Proof.
  induction l as [|kv rest IH]; intros Hnd; [constructor|].
  simpl in Hnd. inversion Hnd as [|? ? Hni Hnd']; subst.
  rewrite fulfilments_cons, map_app.
  destruct (h kv); simpl; try now apply IH.
  constructor; [|now apply IH]. intros Hin. apply Hni.
  eapply fulfilments_keys_incl; eassumption.
Qed.


End FulfilmentsOfEntries.

Lemma fulfilments_matched {V : Type} (l : list (K * V)) (h : K * V -> Promise bool) :
  map (fun d => fst (snd d))
      (List.filter (fun d => snd (snd d)) (fulfilments (map (fun kv => (kv, h kv)) l)))
  = List.filter (fun kv => truthy_fulfilled (h kv)) l.
Proof.
  induction l as [|kv rest IH]; [reflexivity|].
  rewrite fulfilments_cons, filter_app, map_app, IH. simpl.
  destruct (h kv) as [t [|]| |]; reflexivity.
Qed.


Lemma filter_split_length {A : Type} (q : A -> bool) (l : list A) :
  List.length (List.filter q l) + List.length (List.filter (fun x => negb (q x)) l)
  = List.length l.
Proof. induction l as [|x l IH]; simpl; [reflexivity|]. destruct (q x); simpl; lia. Qed.

Lemma wf_unique_value {V : Type} (m : list (K * V)) (k : K) (v v' : V) :
  MapData.wf m -> In (k, v) m -> In (k, v') m -> v = v'.
Proof.
  unfold MapData.wf. induction m as [|[k0 v0] rest IH]; simpl; [tauto|].
  intros Hnd Hv Hv'. inversion Hnd as [|? ? Hni Hnd']; subst.
  assert (Hout : forall w, In (k0, w) rest -> False).
  { intros w Hw. apply Hni. change k0 with (fst (k0, w)). now apply in_map. }
  destruct Hv as [Hv|Hv]; destruct Hv' as [Hv'|Hv'].
  - congruence.
  - inversion Hv; subst. exfalso; eauto.
  - inversion Hv'; subst. exfalso; eauto.
  - eauto.
Qed.

Section AsyncAggregates.
Context {This V : Type} `{PropertyRead V}.
Implicit Types (c : Collection V).

Lemma sorted_fulfilments_NoDup {Out : Type}
    (f : InputFN (This := This) (V := V) (Promise Out)) c (q : Out -> bool) :
  wf c ->
  NoDup (map (fun d : nat * ((K * V) * Out) => fst (fst (snd d)))
           (List.filter (fun d => q (snd (snd d)))
              (settlement_order (fulfilments (started f c))))).
Proof.
  intros Hwf. apply NoDup_map_filter.
  eapply Permutation_NoDup.
  - apply Permutation_map, Permutation_sym, settlement_order_perm.
  - apply (fulfilments_keys_NoDup (entries c)
             (fun kv => f None (snd kv) (fst kv) c)). exact Hwf.
Qed.

Lemma allSettled_outcome {Out R : Type}
    (f : InputFN (This := This) (V := V) (Promise Out)) c (r : R) :
  (forall t e, then_ (Promise_allSettled (reactions (started f c))) (fun _ => Normal r)
               <> Rejected t e) /\
  ((forall key val, In (key, val) (entries c) -> f None val key c <> Pending) ->
   exists t, then_ (Promise_allSettled (reactions (started f c))) (fun _ => Normal r)
             = Fulfilled t r) /\
  ((exists key val, In (key, val) (entries c) /\ f None val key c = Pending) ->
   then_ (Promise_allSettled (reactions (started f c))) (fun _ => Normal r) = Pending).
Proof.
  unfold Promise_allSettled, reactions. repeat split.
  - intros t e. now destruct (all_settled_tick _).
  - intros Hsettled. destruct (all_settled_reactions (started f c)) as [t Ht].
    + intros ip Hin. apply in_map_iff in Hin. destruct Hin as ([key val] & <- & Hin).
      simpl. now apply Hsettled.
    + exists t. now rewrite Ht.
  - intros (key & val & Hin & Hp). rewrite pending_reactions; [reflexivity|].
    exists ((key, val), f None val key c). split; [|exact Hp].
    unfold started, spread. apply in_map_iff. now exists (key, val).
Qed.

Lemma filterAsync_results (f : InputFN (This := This) (V := V) (Promise bool)) c :
  wf c ->
  run_jobs
    (flat_map (fun ip =>
                 then_job (snd ip)
                   (fun (r : bool) results =>
                      if r then set (fst (fst ip)) (snd (fst ip)) results
                      else results))
       (started f c))
    (Collection_new (ArrayOf []) (keyName c))
  = mkCollection (keyName c)
      (map (fun d => fst (snd d))
         (List.filter (fun d => snd (snd d))
            (settlement_order (fulfilments (started f c))))).
Proof.
  intros Hwf.
  etransitivity.
  { exact (run_jobs_of_fulfilments
             (fun kv (r : bool) res => if r then set (fst kv) (snd kv) res else res)
             (started f c) _). }
  etransitivity.
  { apply (fold_cond_set (fun d : nat * ((K * V) * bool) => fst (fst (snd d)))
             (fun d => snd (fst (snd d))) (fun d => snd (snd d))).
    simpl. apply (sorted_fulfilments_NoDup f (fun r => r) Hwf). }
  simpl. f_equal. apply map_ext. now intros [t [[k v] r]].
Qed.


End AsyncAggregates.

Lemma key_among_In (ks : list K) (k : K) : key_among ks k = true <-> In k ks.
Proof.
  unfold key_among. rewrite existsb_exists. split.
  - intros (k' & Hin & Hsame). apply sameValueZero_true in Hsame. now subst.
  - intros Hin. exists k. split; [assumption | apply sameValueZero_refl].
Qed.

Section SweepAsyncFacts.
Context {This V : Type} `{PropertyRead V}.
Implicit Types (c : Collection V).

Lemma fold_cond_delete {D : Type} (key : D -> K) (q : D -> bool) (l : list D) :
  forall this : Collection V,
    fold_left (fun this d => if q d then delete (key d) this else this) l this
    = mkCollection (keyName this)
        (fold_left (fun m k => MapData.delete k m)
           (map key (List.filter q l)) (mapData this)).
Proof.
  induction l as [|d rest IH]; intros this; simpl.
  - now destruct this.
  - rewrite IH. now destruct (q d).
Qed.

Lemma sweepAsync_state (f : InputFN (This := This) (V := V) (Promise bool)) c :
  wf c ->
  run_jobs
    (flat_map (fun ip =>
                 then_job (snd ip)
                   (fun (passed : bool) this =>
                      if passed then delete (fst (fst ip)) this else this))
       (started f c))
    c
  = mkCollection (keyName c)
      (List.filter (fun kv => negb (truthy_fulfilled (f None (snd kv) (fst kv) c)))
         (entries c)).
Proof.
  intros Hwf.
  set (sorted := settlement_order (fulfilments (started f c))).
  set (ks := map (fun d : nat * ((K * V) * bool) => fst (fst (snd d)))
               (List.filter (fun d => snd (snd d)) sorted)).
  etransitivity.
  { exact (run_jobs_of_fulfilments
             (fun kv (passed : bool) this => if passed then delete (fst kv) this else this)
             (started f c) c). }
  etransitivity.
  { apply (fold_cond_delete (fun d : nat * ((K * V) * bool) => fst (fst (snd d)))
             (fun d => snd (snd d))). }
  fold sorted. fold ks. f_equal. rewrite fold_delete by exact Hwf.
  apply filter_ext_in. intros [k v] Hin. simpl. f_equal.
  assert (Hks : forall k', In k' ks <->
                           In k' (map fst (List.filter
                                    (fun kv => truthy_fulfilled (f None (snd kv) (fst kv) c))
                                    (entries c)))).
  { intros k'.
    rewrite <- (fulfilments_matched (entries c) (fun kv => f None (snd kv) (fst kv) c)).
    rewrite map_map. unfold ks. fold (started f c).
    split; apply Permutation_in, Permutation_map, Permutation_filter;
      [|apply Permutation_sym]; apply settlement_order_perm. }
  destruct (truthy_fulfilled (f None v k c)) eqn:Hm.
  - apply key_among_In, Hks. apply in_map_iff. exists (k, v). split; [reflexivity|].
    apply filter_In. now split.
  - destruct (key_among ks k) eqn:Hk; [|reflexivity].
    apply key_among_In, Hks, in_map_iff in Hk.
    destruct Hk as ([k' v'] & Hfst & Hin'). simpl in Hfst. subst k'.
    apply filter_In in Hin'. destruct Hin' as [Hin' Hm']. simpl in Hm'.
    rewrite (@wf_unique_value _ (mapData c) k v v' Hwf Hin Hin') in Hm. congruence.
Qed.


End SweepAsyncFacts.

Section MapAsyncFacts.
Context {This V T : Type} `{PropertyRead V} `{PropertyRead T}.



End MapAsyncFacts.

(* ================================================================== *)
(** ** The asynchronous operations against the synchronous ones *)

Section FindAtOnce.
Context {This V : Type} `{PropertyRead V}.
Implicit Types (c this : Collection V).

Lemma race_at_once (q : K * V -> bool) (l : list (K * V)) :
  Promise_any
    (map (fun ip : (K * V) * Promise bool =>
            then_ (snd ip)
                  (fun r => if r : bool then Normal (Some (snd (fst ip)))
                            else Throw (Thrown "e")))
       (map (fun kv => (kv, Fulfilled 0 (q kv))) l))
  = match hd_error (List.filter q l) with
    | Some kv => Fulfilled 0 (Some (snd kv))
    | None => Rejected 0 AggregateError
    end.
Proof.
  unfold Promise_any. induction l as [|kv rest IH]; simpl; [reflexivity|].
  destruct (q kv); simpl.
  - now destruct (first_fulfilled _) as [[t' a']|].
  - destruct (first_fulfilled _) as [[t' a']|]; [exact IH|].
    destruct (all_settled_tick _) as [t|]; [|destruct (hd_error _); discriminate].
    destruct (hd_error _); [discriminate|]. injection IH as ->. reflexivity.
Qed.

(** X13.  When every invocation of the predicate of [findAsync] is
    fulfilled when it returns, the call resolves at once with what [find]
    returns for the predicate that yields the fulfilled values: the first
    match in insertion order, or [undefined]. *)
Theorem findAsync_at_once_is_find :
  forall (p : InputFN (This := This) (V := V) bool)
         (fn : InputFN (This := This) (V := V) (Promise bool))
         (thisArg : option This) c,
    (forall key val, In (key, val) (entries c) ->
         bind_this fn thisArg None val key c
         = Fulfilled 0 (bind_this p thisArg None val key c)) ->
    exists r,
      find (Callable p) thisArg c = Normal r /\
      findAsync (Callable fn) thisArg c = Normal (Fulfilled 0 r).
Proof.
  intros p fn thisArg c Hnow. eexists. split; [reflexivity|].
  rewrite findAsync_callable. unfold findAsync_promises.
  rewrite (started_at_once _ _ _ Hnow).
  rewrite (race_at_once (fun kv => bind_this p thisArg None (snd kv) (fst kv) c)).
  rewrite find_loop_head_of_filter.
  now destruct (List.filter _ (entries c)).
Qed.

End FindAtOnce.

Section SweepAgainstFilter.
Context {This V : Type} `{PropertyRead V}.
Implicit Types (c this : Collection V).

Lemma sweep_stateless_data (f : InputFN (This := This) (V := V) bool)
    (p : V -> K -> bool) c :
  wf c ->
  (forall val key this, f None val key this = p val key) ->
  sweep_loop f (entries c) c
  = mkCollection (keyName c)
      (List.filter (fun kv => negb (p (snd kv) (fst kv))) (entries c)).
Proof.
  intros Hwf Hp.
  destruct (sweep_loop_data f (entries c) [] c eq_refl Hwf) as [Hd Hn].
  simpl in Hd. rewrite (sweep_verdicts_stateless f p _ Hp), survivors_map in Hd.
  destruct (sweep_loop f (entries c) c) as [n d]. simpl in *. now subst.
Qed.

(** X14.  On a collection with unique keys and for a predicate of the
    value and the key alone, [sweep] and [filter] split the collection:
    [sweep] returns the size of what [filter] returns for the predicate,
    and leaves in the collection what [filter] returns for its negation. *)
Theorem sweep_complements_filter :
  forall (p : V -> K -> bool) (thisArg : option This) c,
    wf c ->
    exists kept gone,
      filter (This := This) (Callable (fun _ v k _ => p v k)) thisArg c = Normal gone /\
      filter (This := This) (Callable (fun _ v k _ => negb (p v k))) thisArg c
      = Normal kept /\
      sweep (This := This) (Callable (fun _ v k _ => p v k)) thisArg c
      = (Normal (size gone), kept) /\
      size gone + size kept = size c.
Proof.
  intros p thisArg c Hwf. eexists. eexists.
  split; [reflexivity|]. split; [reflexivity|].
  simpl. rewrite !(filter_loop_entries _ Hwf).
  assert (Hsweep : sweep_loop (bind_this (fun _ v k _ => p v k) thisArg) (entries c) c
                   = mkCollection (keyName c)
                       (List.filter (fun kv => negb (p (snd kv) (fst kv))) (entries c))).
  { apply sweep_stateless_data; [exact Hwf|]. intros val key this.
    now rewrite bind_this_apply. }
  assert (Hext : forall g : V -> K -> bool,
             List.filter (fun kv => bind_this (This := This) (fun _ v k _ => g v k)
                                      thisArg None (snd kv) (fst kv) c) (entries c)
             = List.filter (fun kv => g (snd kv) (fst kv)) (entries c)).
  { intros g. apply filter_ext. intros kv. now rewrite bind_this_apply. }
  pose proof (filter_split_length (fun kv => p (snd kv) (fst kv)) (entries c)) as Hlen.
  unfold sweep. simpl. rewrite Hsweep. rewrite (Hext p), (Hext (fun v k => negb (p v k))).
  unfold size, entries in *. simpl. split; [|exact Hlen].
  f_equal. f_equal. lia.
Qed.

(** X15.  On a collection with unique keys, when every invocation of the
    predicate of [sweepAsync] is fulfilled, after whatever delay, with
    the answer of a predicate of the value and the key alone,
    [sweepAsync] leaves the collection as [sweep] leaves it for that
    predicate and resolves with the number [sweep] returns. *)
Theorem sweepAsync_agrees_with_sweep :
  forall (p : V -> K -> bool)
         (fn : InputFN (This := This) (V := V) (Promise bool))
         (thisArg : option This) c,
    wf c ->
    (forall key val, In (key, val) (entries c) ->
         exists t, bind_this fn thisArg None val key c = Fulfilled t (p val key)) ->
    snd (sweepAsync (Callable fn) thisArg c)
    = snd (sweep (This := This) (Callable (fun _ v k _ => p v k)) thisArg c) /\
    exists t n,
      fst (sweepAsync (Callable fn) thisArg c) = Normal (Fulfilled t n) /\
      fst (sweep (This := This) (Callable (fun _ v k _ => p v k)) thisArg c) = Normal n.
Proof.
  intros p fn thisArg c Hwf Hful.
  set (f := bind_this fn thisArg).
  assert (Hasync : snd (sweepAsync (Callable fn) thisArg c)
                   = mkCollection (keyName c)
                       (List.filter (fun kv => negb (p (snd kv) (fst kv))) (entries c))).
  { unfold sweepAsync. simpl. fold f. rewrite (sweepAsync_state f Hwf). f_equal.
    apply filter_ext_in. intros [k v] Hin. simpl.
    destruct (Hful k v Hin) as [t Ht]. fold f in Ht. now rewrite Ht. }
  assert (Hsync : snd (sweep (This := This) (Callable (fun _ v k _ => p v k)) thisArg c)
                  = mkCollection (keyName c)
                      (List.filter (fun kv => negb (p (snd kv) (fst kv))) (entries c))).
  { unfold sweep. simpl. apply sweep_stateless_data; [exact Hwf|].
    intros val key this. now rewrite bind_this_apply. }
  split; [now rewrite Hasync, Hsync|].
  destruct (allSettled_outcome f c
              (size c - size (snd (sweepAsync (Callable fn) thisArg c))))
    as (_ & Hsettle & _).
  destruct Hsettle as [t Ht].
  { intros key val Hin. destruct (Hful key val Hin) as [t Ht]. fold f in Ht.
    rewrite Ht. discriminate. }
  exists t, (size c - size (snd (sweepAsync (Callable fn) thisArg c))). split.
  - unfold sweepAsync at 1. simpl. fold f. unfold async_. f_equal. exact Ht.
  - rewrite Hasync, <- Hsync. reflexivity.
Qed.

End SweepAgainstFilter.

(* ================================================================== *)
(** ** The order of the result of filterAsync *)

Section SortedFacts.
Context {X Y : Type}.

Lemma sorted_filter (q : nat * X -> bool) (l : list (nat * X)) :
  StronglySorted (fun a b => fst a <= fst b) l ->
  StronglySorted (fun a b => fst a <= fst b) (List.filter q l).
Proof.
  induction 1 as [|x rest Hs IH Hall]; simpl; [constructor|].
  destruct (q x); [|assumption]. constructor; [assumption|].
  apply Forall_forall. intros y Hy. apply filter_In in Hy.
  rewrite Forall_forall in Hall. now apply Hall.
Qed.

Lemma sorted_map (g : X -> Y) (l : list (nat * X)) :
  StronglySorted (fun a b => fst a <= fst b) l ->
  StronglySorted (fun a b : nat * Y => fst a <= fst b)
    (map (fun d => (fst d, g (snd d))) l).
Proof.
  induction 1 as [|x rest Hs IH Hall]; simpl; [constructor|].
  constructor; [assumption|]. apply Forall_forall. intros y Hy.
  apply in_map_iff in Hy. destruct Hy as (d & <- & Hd). simpl.
  rewrite Forall_forall in Hall. now apply Hall.
Qed.

End SortedFacts.

Lemma fulfilments_In {V Out : Type} (l : list (K * V)) (h : K * V -> Promise Out)
    (t : nat) (kv : K * V) (a : Out) :
  In (t, (kv, a)) (fulfilments (map (fun kv => (kv, h kv)) l)) ->
  In kv l /\ h kv = Fulfilled t a.
Proof.
  induction l as [|kv0 rest IH]; [intros []|].
  rewrite fulfilments_cons, in_app_iff. intros [Hin|Hin].
  - destruct (h kv0) as [t0 a0| |] eqn:Eh; simpl in Hin; try tauto.
    destruct Hin as [[= <- <- <-]|[]]. split; [now left | assumption].
  - destruct (IH Hin). split; [now right | assumption].
Qed.

Section FilterAsyncOrder.
Context {This V : Type} `{PropertyRead V}.
Implicit Types (c : Collection V).

(** X16.  On a collection with unique keys, the entries of the
    collection [filterAsync] resolves with stand in the order in which
    their invocations were fulfilled: each entry of the result comes with
    the tick at which its invocation was fulfilled with a truthy value,
    and these ticks never decrease along the result. *)
Theorem filterAsync_orders_by_settlement :
  forall (fn : InputFN (This := This) (V := V) (Promise bool)) (thisArg : option This)
         c (t : nat) (r : Collection V),
    wf c ->
    filterAsync (Callable fn) thisArg c = Normal (Fulfilled t r) ->
    exists ticked : list (nat * (K * V)),
      entries r = map snd ticked /\
      StronglySorted (fun a b => fst a <= fst b) ticked /\
      (forall tick key val,
          In (tick, (key, val)) ticked ->
          In (key, val) (entries c) /\
          bind_this fn thisArg None val key c = Fulfilled tick true).
Proof.
  intros fn thisArg c t r Hwf Hcall.
  set (f := bind_this fn thisArg) in *.
  set (sorted := settlement_order (fulfilments (started f c))).
  set (matches := List.filter (fun d : nat * ((K * V) * bool) => snd (snd d)) sorted).
  assert (Hr : r = mkCollection (keyName c) (map (fun d => fst (snd d)) matches)).
  { unfold filterAsync, async_ in Hcall. simpl in Hcall. fold f in Hcall.
    rewrite (filterAsync_results f Hwf) in Hcall. fold sorted in Hcall. fold matches in Hcall.
    injection Hcall as Hcall. unfold Promise_allSettled in Hcall.
    destruct (all_settled_tick _); simpl in Hcall; [|discriminate].
    now injection Hcall as _ <-. }
  exists (map (fun d => (fst d, fst (snd d))) matches). split; [|split].
  - rewrite Hr. unfold entries. simpl. now rewrite map_map.
  - apply sorted_map, sorted_filter, settlement_order_sorted.
  - intros tick key val Hin. apply in_map_iff in Hin.
    destruct Hin as ([tk [kv a]] & [= -> ->] & Hd).
    apply filter_In in Hd. destruct Hd as [Hd Ha]. simpl in Ha. subst a.
    apply (Permutation_in _ (settlement_order_perm _)) in Hd.
    apply (fulfilments_In (entries c) (fun kv => f None (snd kv) (fst kv) c)) in Hd.
    exact Hd.
Qed.

End FilterAsyncOrder.

(* ================================================================== *)
(** ** reverse and the lookups *)

Section ReverseLookups.
Context {V : Type} `{PropertyRead V}.
Implicit Types (c : Collection V) (m : list (K * V)).

Lemma get_In_iff m (k : K) (v : V) :
  MapData.wf m -> (MapData.get k m = Some v <-> In (k, v) m).
Proof.
  unfold MapData.wf. induction m as [|[k0 v0] rest IH]; simpl; intros Hnd.
  - split; [discriminate | tauto].
  - inversion Hnd as [|? ? Hni Hnd']; subst.
    destruct (sameValueZero k0 k) eqn:E.
    + apply sameValueZero_true in E; subst k0. split.
      * intros [= ->]. now left.
      * intros [[= ->]|Hin]; [reflexivity|].
        exfalso. apply Hni. change k with (fst (k, v)). now apply in_map.
    + apply sameValueZero_false in E. rewrite (IH Hnd'). split; [tauto|].
      intros [[= -> ->]|Hin]; [congruence | assumption].
Qed.

(** X17.  On a collection with unique keys, [reverse] changes the order
    and nothing else: the size is the same, every key holds the value it
    held, [toJSON] is the reverse of what it was, and the keys are still
    unique. *)
Theorem reverse_keeps_the_entries :
  forall c,
    wf c ->
    size (reverse c) = size c /\
    (forall k, get k (reverse c) = get k c) /\
    toJSON (reverse c) = rev (toJSON c) /\
    wf (reverse c).
Proof.
  intros c Hwf. pose proof (reverse_entries Hwf) as He.
  pose proof (wf_reverse Hwf) as Hwf'. unfold entries in He.
  repeat split; [| | |exact Hwf'].
  - unfold size. rewrite He. apply length_rev.
  - intros k. unfold get.
    destruct (MapData.get k (mapData c)) as [v|] eqn:Eg.
    + apply (get_In_iff _ _ Hwf'). rewrite He. apply -> in_rev.
      now apply (get_In_iff _ _ Hwf).
    + apply get_None. apply get_None in Eg. rewrite He.
      unfold MapData.keys in *. rewrite map_rev. now rewrite <- in_rev.
  - unfold toJSON, values. rewrite He. apply map_rev.
Qed.

End ReverseLookups.

(* ================================================================== *)
(** ** The further properties at concrete inputs *)

Lemma keyed_team : keyed Samples.team.
Proof.
  intros k v Hin. simpl in Hin.
  destruct Hin as [Hin|[Hin|[Hin|[]]]]; injection Hin as <- <-; reflexivity.
Defined.




Lemma not_alice_late_answers :
  forall key val, In (key, val) (entries Samples.team) ->
    exists t, bind_this Cases.not_alice_late None None val key Samples.team
              = Fulfilled t (Cases.not_alice val key).
Proof.
  intros key val Hin. simpl in Hin.
  destruct Hin as [Hin|[Hin|[Hin|[]]]]; injection Hin as <- <-; eexists; reflexivity.
Defined.

Lemma filter_keeps_matches_in_order_witness :
  exists r,
    filter (Callable Samples.is_bob) None Samples.team = Normal r /\
    entries r = [(KNum 2, Samples.bob)] /\
    keyName r = "id" /\
    wf r.
Proof. exact (filter_keeps_matches_in_order Samples.is_bob None wf_team). Defined.

Lemma find_is_head_of_filter_witness :
  exists r,
    filter (Callable Samples.is_bob) None Samples.team = Normal r /\
    find (Callable Samples.is_bob) None Samples.team = Normal (hd_error (toJSON r)).
Proof. exact (find_is_head_of_filter Samples.is_bob None wf_team). Defined.

Lemma map_replaces_values_in_order_witness :
  exists m : Collection JS.Item,
    map_ (Callable Samples.name_of) None Samples.team = Normal m /\
    entries m = [(KNum 1, JS.Arr [KNum 1; KStr "alice"]);
                 (KNum 2, JS.Arr [KNum 2; KStr "bob"]);
                 (KNum 3, JS.Arr [KNum 3; KStr "carol"])] /\
    keys m = keys Samples.team /\
    keyName m = "id" /\
    wf m.
Proof. exact (map_replaces_values_in_order Samples.name_of None wf_team). Defined.

Lemma remove_deletes_the_items_keys_witness :
  entries (remove [Samples.alias; Samples.carol; Samples.pair_a] Samples.team)
  = [(KNum 2, Samples.bob)].
Proof.
  exact (proj1 (remove_deletes_the_items_keys
                  [Samples.alias; Samples.carol; Samples.pair_a] wf_team)).
Defined.

Lemma rebuild_from_toJSON_witness :
  Collection_new (ArrayOf (toJSON Samples.team)) (keyName Samples.team) = Samples.team.
Proof. exact (rebuild_from_toJSON wf_team keyed_team). Defined.






Lemma findAsync_at_once_is_find_witness :
  exists r,
    find (Callable Samples.is_bob) None Samples.team = Normal r /\
    findAsync (Callable Samples.is_bob_async) None Samples.team = Normal (Fulfilled 0 r).
Proof.
  apply findAsync_at_once_is_find. intros key val _. reflexivity.
Defined.

Lemma sweep_complements_filter_witness :
  exists kept gone,
    filter (This := unit) (Callable (fun _ v k _ => Cases.not_alice v k)) None Samples.team
    = Normal gone /\
    filter (This := unit) (Callable (fun _ v k _ => negb (Cases.not_alice v k))) None
      Samples.team = Normal kept /\
    sweep (This := unit) (Callable (fun _ v k _ => Cases.not_alice v k)) None Samples.team
    = (Normal (size gone), kept) /\
    size gone + size kept = size Samples.team.
Proof. exact (sweep_complements_filter (This := unit) Cases.not_alice None wf_team). Defined.

Lemma sweepAsync_agrees_with_sweep_witness :
  snd (sweepAsync (Callable Cases.not_alice_late) None Samples.team)
  = snd (sweep (This := unit) (Callable (fun _ v k _ => Cases.not_alice v k)) None
           Samples.team) /\
  exists t n,
    fst (sweepAsync (Callable Cases.not_alice_late) None Samples.team)
    = Normal (Fulfilled t n) /\
    fst (sweep (This := unit) (Callable (fun _ v k _ => Cases.not_alice v k)) None
           Samples.team) = Normal n.
Proof.
  apply sweepAsync_agrees_with_sweep; [exact wf_team | exact not_alice_late_answers].
Defined.

Lemma filterAsync_orders_by_settlement_witness :
  exists ticked : list (nat * (K * JS.Item)),
    [(KNum 3, Samples.carol); (KNum 2, Samples.bob)] = map snd ticked /\
    StronglySorted (fun a b => fst a <= fst b) ticked /\
    (forall tick key val,
        In (tick, (key, val)) ticked ->
        In (key, val) (entries Samples.team) /\
        bind_this Cases.not_alice_late None None val key Samples.team
        = Fulfilled tick true).
Proof.
  apply (filterAsync_orders_by_settlement (fn := Cases.not_alice_late) (thisArg := None)
           (c := Samples.team) (t := 9)
           (r := mkCollection "id" [(KNum 3, Samples.carol); (KNum 2, Samples.bob)])).
  - exact wf_team.
  - reflexivity.
Defined.

Lemma reverse_keeps_the_entries_witness :
  size (reverse Samples.team) = size Samples.team /\
  (forall k, get k (reverse Samples.team) = get k Samples.team) /\
  toJSON (reverse Samples.team) = rev (toJSON Samples.team) /\
  wf (reverse Samples.team).
Proof. exact (reverse_keeps_the_entries wf_team). Defined.

(* ================================================================== *)
(** ** What findAsync can resolve with *)

Section FindAsyncOutcome.
Context {This V : Type} `{PropertyRead V}.
Implicit Types (c : Collection V).





End FindAsyncOutcome.

Section CopyConstruction.
Context {V : Type} `{PropertyRead V}.

(** X20.  Handing the entries of a collection with unique keys, as a
    non-array iterable, to the constructor with the collection's key
    field yields an equal collection. *)
Theorem constructor_copies_entries :
  forall c : Collection V,
    wf c ->
    Collection_new (IterableOf (entries c)) (keyName c) = c.
Proof.
  intros c Hwf. unfold Collection_new, entries.
  rewrite of_pairs_nodup by exact Hwf. now destruct c.
Qed.

End CopyConstruction.


Lemma constructor_copies_entries_witness :
  Collection_new (IterableOf (entries Samples.team)) (keyName Samples.team)
  = Samples.team.
Proof. exact (constructor_copies_entries wf_team). Defined.

Lemma push_upserts_witness :
  keys (push [Samples.alias; Samples.pair_a; Samples.alice] Samples.team)
  = [KNum 1; KNum 2; KNum 3; KUndefined] /\
  wf (push [Samples.alias; Samples.pair_a; Samples.alice] Samples.team).
Proof.
  pose proof (push_upserts [Samples.alias; Samples.pair_a; Samples.alice] Samples.team)
    as (Hkeys & _ & _ & Hwf).
  split; [exact Hkeys | exact (Hwf wf_team)].
Defined.

Lemma entries_stay_under_their_key_witness :
  keyed (push [Samples.alias] Samples.team) /\
  keyed (remove [Samples.bob] Samples.team) /\
  keyed (reverse Samples.team).
Proof.
  pose proof (entries_stay_under_their_key (V := JS.Item))
    as (_ & Hpush & Hremove & Hreverse & _).
  repeat split; [apply Hpush | apply Hremove | apply Hreverse]; exact keyed_team.
Defined.
